(** * Playlist-Organizer backend: descriptor resolution pipeline

    A shallow embedding of [backend/logic.py] and of the streaming
    endpoint of [backend/main.py], with the properties of the design
    specification stated and settled against it.

    Conventions of the embedding:
    - Python values that cross the functions (JSON documents, track
      dictionaries) are values of [pyval]; dictionaries are [gmap]s keyed
      by strings, so that [{**a, **b}] is the right-biased union [b ∪ a].
    - Python numbers (int and finite float) are exact rationals [Q]; no
      rounding error, infinity or NaN of IEEE arithmetic is modelled,
      except for the NaN produced by [np.corrcoef] on a constant vector,
      which is explicit in [corr].
    - Exceptions are values of [exn] carried by the error monad [res];
      [try ... except Exception] is a match on the result ([try_io] where
      the block has effects).
    - The network, the audio library and the file system are oracles
      passed as arguments; effects (requests, sleeps) are logged in an
      explicit state. *)

From Stdlib Require Import QArith Qround Qabs Lqa ZArith String Ascii.
From stdpp Require Import gmap strings list fin_maps.

Set Warnings "-register-all".

(** ** Python values and exceptions *)

Inductive pyval :=
| VNone
| VBool (b : bool)
| VNum (q : Q)
| VStr (s : string)
| VList (l : list pyval)
| VDict (d : gmap string pyval).

(** The subclasses of [Exception] that the modelled operations raise. *)
Inductive exn :=
| KeyError | TypeError | ValueError | AttributeError | IndexError
| ClientError | TimeoutError | JSONDecodeError | OSError | LibrosaError.

Inductive res (A : Type) :=
| Ok (a : A)
| Raise (e : exn).
Arguments Ok {A} a.
Arguments Raise {A} e.

#[export] Instance res_ret : MRet res := λ A a, Ok a.
#[export] Instance res_bind : MBind res := λ A B f m,
  match m with Ok a => f a | Raise e => Raise e end.

Definition raises {A} (r : res A) : Prop := ∃ e, r = Raise e.

(** *** Comparisons on rationals *)

Definition Qltb (a b : Q) : bool :=
  match (a ?= b)%Q with Lt => true | _ => false end.
Definition Qleb (a b : Q) : bool :=
  match (a ?= b)%Q with Gt => false | _ => true end.

(** *** Truthiness, numeric coercion *)

(** [bool(v)]: what [if v:] and [not v] test. *)
Definition truthy (v : pyval) : bool :=
  match v with
  | VNone => false
  | VBool b => b
  | VNum q => negb (Qeq_bool q 0)
  | VStr s => match s with EmptyString => false | _ => true end
  | VList l => match l with [] => false | _ => true end
  | VDict d => negb (bool_decide (size d = 0%nat))
  end.

(** The numeric value of an operand of [<], [-], [*]: numbers, and
    booleans as 0 and 1; anything else is a [TypeError]. *)
Definition as_num (v : pyval) : res Q :=
  match v with
  | VNum q => Ok q
  | VBool b => Ok (if b then 1 else 0)%Q
  | _ => Raise TypeError
  end.

(** Python's [round(x, 1)] on an exact rational: nearest multiple of 1/10,
    ties to the even one. The result is always of the form [z # 10]. *)
Definition round_half_even (q : Q) : Z :=
  let f := Qfloor q in
  match (q - inject_Z f ?= 1 # 2)%Q with
  | Lt => f
  | Gt => (f + 1)%Z
  | Eq => if Z.even f then f else (f + 1)%Z
  end.

Definition py_round1 (q : Q) : Q := (round_half_even (q * 10) # 10)%Q.

(** Python's [int(x)]: truncation toward zero. *)
Definition py_int (q : Q) : Z := Z.quot (Qnum q) (Zpos (Qden q)).


(** ** Utilities of [logic.py] *)

(** [re.sub(r'[^a-zA-Z0-9 ]', '', s)] *)
Definition keep_char (c : ascii) : bool :=
  let n := nat_of_ascii c in
  ((97 <=? n) && (n <=? 122) || (65 <=? n) && (n <=? 90)
   || (48 <=? n) && (n <=? 57) || (n =? 32))%nat.

Fixpoint clean_str (s : string) : string :=
  match s with
  | EmptyString => EmptyString
  | String c s' => if keep_char c then String c (clean_str s') else clean_str s'
  end.

(** *** [normalize_bpm] *)

(** The two [while] loops. Each is run for at most [n] iterations, where
    [n] is an upper bound on the iterations the loop can take
    ([doublings], [halvings] below); [while_lt_90_runs] and
    [while_gt_180_runs] show that the bounded loop is the Python loop. *)
Fixpoint while_lt_90 (n : nat) (bpm : Q) : Q :=
  match n with
  | O => bpm
  | S n' => if Qltb bpm 90 then while_lt_90 n' (bpm * 2)%Q else bpm
  end.

Fixpoint while_gt_180 (n : nat) (bpm : Q) : Q :=
  match n with
  | O => bpm
  | S n' => if Qltb 180 bpm then while_gt_180 n' (bpm / 2)%Q else bpm
  end.

(** [2^doublings q >= 90 * den q] and [2^halvings q > num q]. *)
Definition doublings (q : Q) : nat := (Pos.to_nat (Pos.size (Qden q)) + 7)%nat.
Definition halvings (q : Q) : nat := Pos.to_nat (Pos.size (Z.to_pos (Qnum q))).

Definition normalize_bpm (bpm : pyval) : res pyval :=
  if negb (truthy bpm) then Ok (VNum 0)
  else
    b ← as_num bpm;
    if Qleb b 0 then Ok (VNum 0)
    else
      let b1 := while_lt_90 (doublings b) b in
      let b2 := while_gt_180 (halvings b1) b1 in
      Ok (VNum (py_round1 b2)).

(** Big-step semantics of [while cond(s): s = body(s)]. *)
Inductive while_loop {S : Type} (cond : S → bool) (body : S → S) : S → S → Prop :=
| while_exit s : cond s = false → while_loop cond body s s
| while_iter s s' :
    cond s = true → while_loop cond body (body s) s' → while_loop cond body s s'.


(** ** Key estimation: [chroma_to_key] *)

(** [for x in l: s = body(s, x)], where the body may raise. *)
Fixpoint for_in {A S : Type} (l : list A) (body : S → A → res S) (s : S) : res S :=
  match l with
  | [] => Ok s
  | x :: l' => s' ← body s x; for_in l' body s'
  end.

(** [d[k]] on a dictionary literal of the code. *)
Definition getitem {K V} `{Countable K} (d : gmap K V) (k : K) : res V :=
  match d !! k with Some v => Ok v | None => Raise KeyError end.

Definition Qsum (l : list Q) : Q := foldr Qplus 0%Q l.

(** [np.sum(chroma, axis=1)]: one sum per pitch-class row. *)
Definition np_sum_axis1 (chroma : list (list Q)) : list Q := map Qsum chroma.

(** [np.roll(l, shift)]: element [i] moves to position [(i + shift) mod n]. *)
Definition np_roll {A} (l : list A) (shift : nat) : list A :=
  let n := length l in
  let k := (n - shift `mod` n)%nat in
  drop k l ++ take k l.

Definition mean (l : list Q) : Q := (Qsum l / inject_Z (Z.of_nat (length l)))%Q.

(** Sum of the products of the deviations from the means. *)
Definition cross (x y : list Q) : Q :=
  Qsum (zip_with (λ a b, (a - mean x) * (b - mean y))%Q x y).

(** A correlation coefficient as the code uses it. The code only compares
    coefficients ([corr > max_corr]), so a coefficient [r] is carried by
    [r * |r|], which is rational, increases with [r], and leaves [-1], [0]
    and [1] where they are. [NaN] is numpy's [0/0]. *)
Inductive corr :=
| NaN
| Corr (signed_square : Q).

(** [a > b] on floats: false as soon as one side is NaN. *)
Definition corr_gt (a b : corr) : bool :=
  match a, b with
  | Corr x, Corr y => Qltb y x
  | _, _ => false
  end.

Definition clip (lo hi x : Q) : Q :=
  if Qltb x lo then lo else if Qltb hi x then hi else x.

(** [np.corrcoef(x, y)[0, 1]]: [cov(x,y) / (std x * std y)], clipped to
    [[-1, 1]]; the [1/(n-1)] factors cancel. A vanishing variance gives
    [0/0 = NaN]. Vectors of different lengths cannot be stacked
    ([ValueError]). *)
Definition pearson (x y : list Q) : corr :=
  let sxy := cross x y in
  let d := (cross x x * cross y y)%Q in
  if Qeq_bool d 0 then NaN
  else Corr (clip (-1) 1 (sxy * Qabs sxy / d)%Q).

Definition corrcoef (x y : list Q) : res corr :=
  if negb (length x =? length y)%nat then Raise ValueError
  else Ok (pearson x y).

Definition major_template : list Q := [1; 0; 1; 0; 1; 1; 0; 1; 0; 1; 0; 1]%Q.
Definition minor_template : list Q := [1; 0; 1; 1; 0; 1; 0; 1; 1; 0; 1; 0]%Q.

Definition major_camelot : gmap nat string :=
  list_to_map
    [(0, "8B"); (1, "3B"); (2, "10B"); (3, "5B"); (4, "12B"); (5, "7B");
     (6, "2B"); (7, "9B"); (8, "4B"); (9, "11B"); (10, "6B"); (11, "1B")]%nat.

Definition minor_camelot : gmap nat string :=
  list_to_map
    [(0, "5A"); (1, "12A"); (2, "7A"); (3, "2A"); (4, "9A"); (5, "4A");
     (6, "11A"); (7, "6A"); (8, "1A"); (9, "8A"); (10, "3A"); (11, "10A")]%nat.

(** The body of both [for root in range(12)] loops; the loop state is
    [(max_corr, best_key)]. *)
Definition key_scan (template : list Q) (camelot : gmap nat string)
    (chroma_sum : list Q) (st : corr * string) (root : nat) : res (corr * string) :=
  let rotated := np_roll template root in
  c ← corrcoef chroma_sum rotated;
  if corr_gt c st.1 then
    k ← getitem camelot root; Ok (c, k)
  else Ok st.

Definition chroma_to_key (chroma : list (list Q)) : res string :=
  let chroma_sum := np_sum_axis1 chroma in
  let st := (Corr (-1), "Unknown") in
  st ← for_in (seq 0 12) (key_scan major_template major_camelot chroma_sum) st;
  st ← for_in (seq 0 12) (key_scan minor_template minor_camelot chroma_sum) st;
  Ok st.2.

(** The 24 labels of the Camelot wheel: positions 1 to 12, suffix [A]
    (minor) or [B] (major). *)
Definition camelot_labels : list string :=
  ["1A"; "2A"; "3A"; "4A"; "5A"; "6A"; "7A"; "8A"; "9A"; "10A"; "11A"; "12A";
   "1B"; "2B"; "3B"; "4B"; "5B"; "6B"; "7B"; "8B"; "9B"; "10B"; "11B"; "12B"].

(** A chromagram with a single frame, whose profile is [p]. *)
Definition one_frame (p : list Q) : list (list Q) := map (λ x, [x]) p.

(** Two bins of the profile differ. *)
Definition profile_varies (p : list Q) : Prop :=
  ∃ a b, a ∈ p ∧ b ∈ p ∧ ¬ (a == b)%Q.

(** ** Python operations on JSON values *)

Abbreviation dict := (gmap string pyval).

(** [v[k]] for a string key [k]. *)
Definition py_getitem (v : pyval) (k : string) : res pyval :=
  match v with
  | VDict d => match d !! k with Some x => Ok x | None => Raise KeyError end
  | _ => Raise TypeError
  end.

(** [v.get(k, dflt)] *)
Definition py_get (v : pyval) (k : string) (dflt : pyval) : res pyval :=
  match v with
  | VDict d => Ok (default dflt (d !! k))
  | _ => Raise AttributeError
  end.

(** [v[0]] *)
Definition py_index0 (v : pyval) : res pyval :=
  match v with
  | VList (x :: _) => Ok x
  | VList [] => Raise IndexError
  | VStr (String c _) => Ok (VStr (String c EmptyString))
  | VStr EmptyString => Raise IndexError
  | VDict _ => Raise KeyError
  | _ => Raise TypeError
  end.

(** [k in v] for a string [k]. *)
Definition py_in (k : string) (v : pyval) : res bool :=
  match v with
  | VDict d => Ok (bool_decide (is_Some (d !! k)))
  | VList l =>
      Ok (existsb (λ x, match x with VStr s => String.eqb s k | _ => false end) l)
  | VStr s => Ok (match index 0 k s with Some _ => true | None => false end)
  | _ => Raise TypeError
  end.

(** The elements that [for x in v] visits. *)
Definition py_iter (v : pyval) : res (list pyval) :=
  match v with
  | VList l => Ok l
  | VStr s => Ok (map (λ c, VStr (String c EmptyString)) (list_ascii_of_string s))
  | VDict d => Ok (map (λ kv, VStr kv.1) (map_to_list d))
  | _ => Raise TypeError
  end.

(** [v == 0] *)
Definition py_eq0 (v : pyval) : bool :=
  match v with
  | VNum q => Qeq_bool q 0
  | VBool b => negb b
  | _ => false
  end.

(** ** The outside world *)

(** What a request meets: [session.get] raises, or a response arrives with
    a status and a body; [body] is what reading it ([resp.json()],
    [resp.read()]) gives. *)
Inductive http_outcome :=
| ConnectFail (e : exn)
| Response (status : Z) (body : res pyval).

(** What librosa and numpy compute on the downloaded file:
    [librosa.load], [float(tempo)] of [librosa.beat.beat_track],
    [librosa.feature.chroma_cqt], [float(np.mean(librosa.feature.rms))]. *)
Record audio := {
  load : res unit;
  beat_track : res Q;
  chroma_cqt : res (list (list Q));
  rms_mean : res Q
}.

(** The environment of one track's resolution: the answer to its [n]-th
    request, the outcome of writing and of unlinking the temporary file, and
    the audio analysis of the download. *)
Record env := {
  net : nat → http_outcome;
  tmp_write : res unit;
  unlink : res unit;
  librosa : audio
}.

(** The observable effects so far: how many requests were sent, and the
    delays slept, oldest first. *)
Record io_state := { sent : nat; slept : list Q }.

Definition io_start : io_state := {| sent := 0; slept := [] |}.

Definition IO (A : Type) : Type := io_state → res A * io_state.

#[export] Instance io_ret : MRet IO := λ A a s, (Ok a, s).
#[export] Instance io_bind : MBind IO := λ A B f m s,
  match m s with
  | (Ok a, s') => f a s'
  | (Raise e, s') => (Raise e, s')
  end.

Definition lift {A} (r : res A) : IO A := λ s, (r, s).

Definition try_io {A} (body : IO A) (handler : exn → IO A) : IO A := λ s,
  match body s with
  | (Ok a, s') => (Ok a, s')
  | (Raise e, s') => handler e s'
  end.

(** [await asyncio.sleep(secs)] *)
Definition sleep (secs : Q) : IO unit := λ s,
  (Ok (), {| sent := sent s; slept := slept s ++ [secs] |}).

(** [async with session.get(...) as resp] *)
Definition session_get (w : env) : IO (Z * res pyval) := λ s,
  let s' := {| sent := S (sent s); slept := slept s |} in
  match net w (sent s) with
  | ConnectFail e => (Raise e, s')
  | Response status body => (Ok (status, body), s')
  end.

(** How a loop body ends: it falls through to the next iteration
    ([continue] included) or it returns from the function. *)
Inductive ctl (A : Type) :=
| Continue
| Return (v : A).
Arguments Continue {A}.
Arguments Return {A} v.

Section pipeline.

(** [float(s)] on a string, [None] where Python raises [ValueError]. *)
Variable float_of_string : string → option Q.

(** [float(v)] *)
Definition py_float (v : pyval) : res Q :=
  match v with
  | VNum q => Ok q
  | VBool b => Ok (if b then 1 else 0)%Q
  | VStr s => match float_of_string s with Some q => Ok q | None => Raise ValueError end
  | _ => Raise TypeError
  end.

(** *** [fetch_soundnet] *)

(** The part of the [try] block that follows [data = await resp.json()];
    [None] when control reaches the end of the block without returning. *)
Definition soundnet_descriptor (data : pyval) : res (option dict) :=
  has_tempo ← py_in "tempo" data;
  if has_tempo : bool then
    camelot ← py_get data "camelot" VNone;
    tempo ← py_get data "tempo" VNone;
    bpm ← normalize_bpm tempo;
    energy ← py_get data "energy" (VNum 50) ≫= py_float;
    Ok (Some (<["bpm" := bpm]>
             (<["key" := if truthy camelot then camelot else VStr "?"]>
             (<["energy" := VNum energy]>
             (<["source" := VStr "soundnet"]> (∅ : dict))))))
  else Ok None.

Definition fetch_soundnet (w : env) (spotify_id : pyval) : IO (option dict) :=
  try_io
    ('(status, body) ← session_get w;
     if (status =? 200)%Z then
       data ← lift body;
       lift (soundnet_descriptor data)
     else mret None)
    (λ e, mret None).

(** *** [fetch_preview_url] *)

(** One of the two duration loops: the first result whose duration is
    within [tol] of the request returns its preview; [None] when the loop
    ends without returning. *)
Fixpoint match_duration (tol : Q) (duration_ms : pyval) (results : list pyval)
    : res (option pyval) :=
  match results with
  | [] => Ok None
  | result :: rest =>
      itunes_dur ← py_get result "trackTimeMillis" (VNum 0);
      a ← as_num itunes_dur;
      b ← as_num duration_ms;
      if Qltb (Qabs (a - b)) tol then
        url ← py_getitem result "previewUrl"; Ok (Some url)
      else match_duration tol duration_ms rest
  end.

(** [if duration_ms: for result in data["results"]: ...] *)
Definition duration_loop (tol : Q) (data duration_ms : pyval) : res (option pyval) :=
  if truthy duration_ms then
    results ← py_getitem data "results";
    items ← py_iter results;
    match_duration tol duration_ms items
  else Ok None.

(** The three strategies, once [data["resultCount"]] is known not to be 0. *)
Definition select_preview (data duration_ms : pyval) : res pyval :=
  strict ← duration_loop 4000 data duration_ms;
  match strict with
  | Some url => Ok url
  | None =>
    relaxed ← duration_loop 10000 data duration_ms;
    match relaxed with
    | Some url => Ok url
    | None =>
      results ← py_getitem data "results";
      if truthy results then
        first ← py_index0 results;
        py_getitem first "previewUrl"
      else Ok VNone
    end
  end.

(** The fallback search with the cleaned name; [re.sub] raises
    [TypeError] on a name that is not a string. *)
Definition cleaned_search (w : env) (track_name data : pyval) : IO pyval :=
  count ← lift (py_getitem data "resultCount");
  if py_eq0 count then
    match track_name with
    | VStr s =>
        let cleaned_name := clean_str s in
        if negb (String.eqb cleaned_name s) then
          '(status, body) ← session_get w;
          if (status =? 200)%Z then lift body else mret data
        else mret data
    | _ => lift (Raise TypeError)
    end
  else mret data.

(** The body of [for attempt in range(3)]. *)
Definition search_attempt (w : env) (track_name duration_ms : pyval)
    (attempt : nat) : IO (ctl pyval) :=
  try_io
    ('(status, body) ← session_get w;
     if bool_decide (status ∈ [403; 429]%Z) then
       sleep (inject_Z (2 ^ Z.of_nat attempt));; mret Continue
     else if negb (status =? 200)%Z then mret (Return VNone)
     else
       data ← lift body;
       data ← cleaned_search w track_name data;
       count ← lift (py_getitem data "resultCount");
       if py_eq0 count then mret (Return VNone)
       else url ← lift (select_preview data duration_ms); mret (Return url))
    (λ e, sleep 1;; mret Continue).

Fixpoint search_attempts (w : env) (track_name duration_ms : pyval)
    (attempts : list nat) : IO pyval :=
  match attempts with
  | [] => mret VNone
  | attempt :: rest =>
      c ← search_attempt w track_name duration_ms attempt;
      match c with
      | Continue => search_attempts w track_name duration_ms rest
      | Return v => mret v
      end
  end.

Definition fetch_preview_url (w : env) (artist track_name duration_ms : pyval)
    : IO pyval :=
  search_attempts w track_name duration_ms (seq 0 3).

(** *** [analyze_audio_file] *)

(** The [try] block. *)
Definition analyze_audio (a : audio) : res dict :=
  _ ← load a;
  bpm ← beat_track a;
  chroma ← chroma_cqt a;
  key ← chroma_to_key chroma;
  rms ← rms_mean a;
  let energy_score := (rms * 100)%Q in
  bpm ← normalize_bpm (VNum bpm);
  Ok (<["bpm" := bpm]>
     (<["key" := VStr key]>
     (<["energy" := VNum (py_round1 energy_score)]> ∅))).

Definition analyze_audio_file (a : audio) : dict :=
  match analyze_audio a with
  | Ok analysis => analysis
  | Raise e =>
      <["bpm" := VNum 0]> (<["key" := VStr "???"]> (<["energy" := VNum 0]> ∅))
  end.

(** *** [process_track] *)

(** [d[k]] on a Python dictionary. *)
Definition dict_getitem (d : dict) (k : string) : res pyval :=
  match d !! k with Some v => Ok v | None => Raise KeyError end.

(** The download-and-analyse block; [None] when the response is not a 200
    and control leaves the [try] without returning. *)
Definition download_and_analyze (w : env) (track_metadata : dict) : IO (option dict) :=
  try_io
    ('(status, body) ← session_get w;
     if (status =? 200)%Z then
       _ ← lift body;
       _ ← lift (tmp_write w);
       let analysis := analyze_audio_file (librosa w) in
       _ ← lift (unlink w);
       bpm ← lift (dict_getitem analysis "bpm");
       key ← lift (dict_getitem analysis "key");
       energy ← lift (dict_getitem analysis "energy");
       mret (Some (<["bpm" := bpm]>
                  (<["key" := key]>
                  (<["energy" := energy]>
                  (<["status" := VStr "analyzed_audio"]> track_metadata)))))
     else mret None)
    (λ e, mret (Some (<["bpm" := VNum 0]>
                     (<["key" := VStr "?"]>
                     (<["energy" := VNum 0]>
                     (<["status" := VStr "error"]> track_metadata)))))).

Definition process_track (w : env) (track_metadata : dict) : IO dict :=
  artist ← lift (dict_getitem track_metadata "artist");
  name ← lift (dict_getitem track_metadata "name");
  let duration_ms := default VNone (track_metadata !! "duration_ms") in
  soundnet_data ← fetch_soundnet w (default VNone (track_metadata !! "id"));
  match soundnet_data with
  | Some descriptor =>
      (* a returned descriptor has its four keys, hence is truthy *)
      mret (descriptor ∪ track_metadata)
  | None =>
    preview_url ← fetch_preview_url w artist name duration_ms;
    if negb (truthy preview_url) then
      mret (<["bpm" := VNum 0]> (<["status" := VStr "no_preview"]> track_metadata))
    else
      r ← download_and_analyze w track_metadata;
      match r with
      | Some result => mret result
      | None =>
          mret (<["bpm" := VNum 0]>
               (<["key" := VStr "?"]>
               (<["energy" := VNum 0]>
               (<["status" := VStr "failed_download"]> track_metadata))))
      end
  end.

(** ** The streaming endpoint of [main.py] *)

Record AnalyzeRequest := {
  playlist_link : option string;
  playlist_id : option string;
  access_token : string;
  tracks : option (list dict)
}.

(** The text of an event, with the values that the f-strings interpolate. *)
Inductive message :=
| ReAnalyzing (n : nat)
| Fetching
| Found (n : nat)
| NoSource
| Analyzed (completed_count total : nat) (name : pyval)
| Complete
| Failure (e : exn).

Inductive event :=
| Progress (msg : message)
| Update (track : dict) (percent : Z) (msg : message)
| Done (msg : message)
| Error (msg : message).

(** A generator body: the events yielded so far, and how it went on. *)
Definition Gen (A : Type) : Type := list event * res A.

#[export] Instance gen_ret : MRet Gen := λ A a, ([], Ok a).
#[export] Instance gen_bind : MBind Gen := λ A B f m,
  match m with
  | (evs, Ok a) => let '(evs', r) := f a in (evs ++ evs', r)
  | (evs, Raise e) => (evs, Raise e)
  end.

Definition yield (ev : event) : Gen unit := ([ev], Ok ()).
Definition gen_lift {A} (r : res A) : Gen A := ([], r).
Definition gen_try (body : Gen unit) (handler : exn → Gen unit) : Gen unit :=
  match body with
  | (evs, Ok a) => (evs, Ok a)
  | (evs, Raise e) => let '(evs', r) := handler e in (evs ++ evs', r)
  end.

(** One item of the fetched playlist: the dictionary appended to
    [to_analyze], or [None] on [continue]. *)
Definition parse_item (item : pyval) : res (option dict) :=
  t ← py_get item "track" VNone;
  if negb (truthy t) then Ok None
  else
    is_local ← py_get t "is_local" VNone;
    if truthy is_local then Ok None
    else
      id ← py_getitem t "id";
      name ← py_getitem t "name";
      artist ← (artists ← py_getitem t "artists";
                first ← py_index0 artists;
                py_getitem first "name");
      duration_ms ← py_getitem t "duration_ms";
      images ← (album ← py_getitem t "album"; py_getitem album "images");
      image ← (if truthy images then
                 album ← py_getitem t "album";
                 images ← py_getitem album "images";
                 first ← py_index0 images;
                 py_getitem first "url"
               else Ok VNone);
      uri ← py_getitem t "uri";
      Ok (Some (<["id" := id]> (<["name" := name]> (<["artist" := artist]>
               (<["duration_ms" := duration_ms]> (<["image" := image]>
               (<["uri" := uri]> (<["bpm" := VNum 0]> (<["key" := VStr "?"]>
               (<["energy" := VNum 0]> ∅)))))))))).

Fixpoint parse_items (items : list pyval) : res (list dict) :=
  match items with
  | [] => Ok []
  | item :: rest =>
      parsed ← parse_item item;
      more ← parse_items rest;
      Ok (match parsed with Some track => track :: more | None => more end)
  end.

(** What a task does once it holds a permit (the permit pool itself is
    [Pool] below). *)
Definition bounded_process (w : env) (track : dict) : IO dict :=
  sleep (5 # 100);; process_track w track.

(** [for future in asyncio.as_completed(pending): ...] from the
    [completed_count]-th future on. *)
Fixpoint stream_updates (total completed_count : nat) (futures : list (res dict))
    : Gen unit :=
  match futures with
  | [] => mret ()
  | future :: rest =>
      result ← gen_lift future;
      let completed_count := S completed_count in
      let percent :=
        py_int (inject_Z (Z.of_nat completed_count) / inject_Z (Z.of_nat total) * 100)%Q in
      name ← gen_lift (dict_getitem result "name");
      yield (Update result percent (Analyzed completed_count total name));;
      stream_updates total completed_count rest
  end.

(** The scheduler: [as_completed] gives the futures in the order in which
    they complete. *)
Variable as_completed : list (res dict) → list (res dict).

(** The environment of the task at each position of [to_analyze]. *)
Variable envs : nat → env.

(** All the items that [sp.playlist_items] and [sp.next] return for the
    playlist, or the exception that one of the calls raises. *)
Variable spotify_items : res (list pyval).

Definition analyze_batch (to_analyze : list dict) : Gen unit :=
  let total := length to_analyze in
  let pending :=
    imap (λ i track, (bounded_process (envs i) track io_start).1) to_analyze in
  stream_updates total 0 (as_completed pending);;
  yield (Done Complete).

Definition event_generator (req : AnalyzeRequest) : list event :=
  (gen_try
     (match tracks req, playlist_link req with
      | Some (track :: more), _ =>
          yield (Progress (ReAnalyzing (length (track :: more))));;
          analyze_batch (track :: more)
      | _, Some (String c link) =>
          yield (Progress Fetching);;
          items ← gen_lift spotify_items;
          yield (Progress (Found (length items)));;
          to_analyze ← gen_lift (parse_items items);
          analyze_batch to_analyze
      | _, _ => yield (Error NoSource)
      end)
     (λ e, yield (Error (Failure e)))).1.

End pipeline.

(** ** The permit pool of the batch controller *)

(** [bounded_process] runs under [asyncio.Semaphore(4)]. The tasks are
    interleaved by the event loop; the model keeps the value of the
    semaphore and, for each task, how many of its steps are done, and
    lets a scheduler pick the task that moves next. *)
Module Pool.

(** The steps of [bounded_process]: entering [async with sem], the
    stagger [asyncio.sleep(0.05)], [process_track], and leaving the
    [async with] block (on return or on an exception). *)
Inductive instr :=
| Acquire
| Stagger (secs : Q)
| ProcessTrack
| Release.

Definition bounded_process_steps : list instr :=
  [Acquire; Stagger (5 # 100); ProcessTrack; Release].

Record state := {
  value : nat;
  steps_done : list nat
}.

(** [sem = asyncio.Semaphore(4)], and one task per track. *)
Definition init (n : nat) : state :=
  {| value := 4; steps_done := replicate n 0 |}.

(** Task [i] takes its next step, when it has one and may take it:
    [Acquire] waits for a positive value. *)
Definition step (i : nat) (s : state) : option state :=
  pc ← steps_done s !! i;
  ins ← bounded_process_steps !! pc;
  match ins with
  | Acquire =>
      if decide (0 < value s)
      then Some {| value := value s - 1; steps_done := <[i := S pc]> (steps_done s) |}
      else None
  | Release =>
      Some {| value := S (value s); steps_done := <[i := S pc]> (steps_done s) |}
  | Stagger _ | ProcessTrack =>
      Some {| value := value s; steps_done := <[i := S pc]> (steps_done s) |}
  end.

Fixpoint run (schedule : list nat) (s : state) : option state :=
  match schedule with
  | [] => Some s
  | i :: rest => s' ← step i s; run rest s'
  end.

(** A task holds a permit from its [Acquire] to its [Release]. *)
Definition holds (pc : nat) : bool := (1 <=? pc) && (pc <=? 3).

Definition in_flight (s : state) : nat :=
  sum_list (map (λ pc, if holds pc then 1 else 0) (steps_done s)).

End Pool.

(** ** The rest of [main.py] *)

(** *** The playlist identifier of a link *)

(** [s.split(sep)] for a separator of one character: the pieces between
    the occurrences of [sep], at least one piece. *)
Fixpoint py_split (sep : ascii) (s : string) : list string :=
  match s with
  | EmptyString => [EmptyString]
  | String c s' =>
      let pieces := py_split sep s' in
      if Ascii.eqb c sep then EmptyString :: pieces
      else match pieces with
           | piece :: more => String c piece :: more
           | [] => [String c EmptyString]
           end
  end.

(** [req.playlist_link.split("/")[-1].split("?")[0]] *)
Definition playlist_id_of_link (playlist_link : string) : string :=
  let after_slash := List.last (py_split "/" playlist_link) EmptyString in
  List.hd EmptyString (py_split "?" after_slash).

(** *** [create_playlist] *)

Module CreatePlaylist.

Record CreatePlaylistRequest := {
  tracks : list dict;
  name : string;
  access_token : string
}.

(** The Spotify client: what [sp.current_user()] and
    [sp.user_playlist_create(...)] return or raise, and how the [k]-th call of
    [sp.playlist_add_items] ends. *)
Record spotify := {
  current_user : res pyval;
  user_playlist_create : res pyval;
  playlist_add_items : nat → res unit
}.

(** The calls that change the account, in the order they are made; a call
    is recorded when it is made, whether it returns or raises. *)
Inductive call :=
| Created (user_id : pyval) (name : string)
| Added (playlist_id : pyval) (batch : list pyval).

(** What the endpoint answers: the returned dictionary, or
    [HTTPException(status_code, detail=str(e))]. *)
Inductive answer :=
| Returned (body : dict)
| HTTPException (status_code : Z) (detail : exn).

Definition Sp (A : Type) : Type := list call * res A.

#[export] Instance sp_ret : MRet Sp := λ A a, ([], Ok a).
#[export] Instance sp_bind : MBind Sp := λ A B f m,
  match m with
  | (calls, Ok a) => let '(calls', r) := f a in (calls ++ calls', r)
  | (calls, Raise e) => (calls, Raise e)
  end.

Definition sp_lift {A} (r : res A) : Sp A := ([], r).
Definition sp_call (c : call) (outcome : res unit) : Sp unit := ([c], outcome).

(** [range(0, n, step)] *)
Definition range_step (n step : nat) : list nat :=
  map (λ k, k * step) (seq 0 ((n + step - 1) / step)).

(** [l[i:i+100]] *)
Definition slice100 {A} (l : list A) (i : nat) : list A := take 100 (drop i l).

(** [[t['uri'] for t in req.tracks]] *)
Fixpoint uris (tracks : list dict) : res (list pyval) :=
  match tracks with
  | [] => Ok []
  | t :: rest => uri ← dict_getitem t "uri"; more ← uris rest; Ok (uri :: more)
  end.

(** [for i in range(0, len(track_uris), 100): ...]; the iterations are
    numbered to ask the client about each call. *)
Fixpoint add_batches (sp : spotify) (playlist_id : pyval) (track_uris : list pyval)
    (k : nat) (starts : list nat) : Sp unit :=
  match starts with
  | [] => mret ()
  | i :: rest =>
      let batch := slice100 track_uris i in
      sp_call (Added playlist_id batch) (playlist_add_items sp k);;
      add_batches sp playlist_id track_uris (S k) rest
  end.

(** The [try] block. *)
Definition create_playlist_body (sp : spotify) (req : CreatePlaylistRequest) : Sp dict :=
  user_id ← sp_lift (current_user sp ≫= λ user, py_getitem user "id");
  playlist ← ([Created user_id (name req)], user_playlist_create sp);
  playlist_id ← sp_lift (py_getitem playlist "id");
  track_uris ← sp_lift (uris (tracks req));
  add_batches sp playlist_id track_uris 0 (range_step (length track_uris) 100);;
  url ← sp_lift (py_getitem playlist "external_urls" ≫= λ urls, py_getitem urls "spotify");
  mret (<["id" := playlist_id]> (<["url" := url]> (∅ : dict))).

Definition create_playlist (sp : spotify) (req : CreatePlaylistRequest)
    : list call * answer :=
  match create_playlist_body sp req with
  | (calls, Ok body) => (calls, Returned body)
  | (calls, Raise e) => (calls, HTTPException 500 e)
  end.

End CreatePlaylist.

(** ** Specification-side definitions and sample environments *)

(** A returned tempo is [0] or a one-decimal value of the canonical
    range. *)
Definition canonical_bpm (v : pyval) : Prop :=
  v = VNum 0 ∨ ∃ z : Z, v = VNum (z # 10) ∧ (900 ≤ z ≤ 1800)%Z.

Definition pow2 (n : nat) : Q := inject_Z (2 ^ Z.of_nat n).





(** What an attempt leaves behind: a retry follows a pause of 1 second or
    of [2 ** attempt] seconds, a return follows no pause. *)
Definition paused (attempt : nat) (c : ctl pyval) (s s' : io_state) : Prop :=
  match c with
  | Continue =>
      slept s' = slept s ++ [1%Q]
      ∨ slept s' = slept s ++ [inject_Z (2 ^ Z.of_nat attempt)]
  | Return _ => slept s' = slept s
  end.

Definition no_audio : audio :=
  {| load := Raise LibrosaError; beat_track := Raise LibrosaError;
     chroma_cqt := Raise LibrosaError; rms_mean := Raise LibrosaError |}.

Definition env_of (answers : nat → http_outcome) (a : audio) : env :=
  {| net := answers; tmp_write := Ok (); unlink := Ok (); librosa := a |}.

Definition soundnet_doc : dict :=
  <["tempo" := VNum 70]> (<["camelot" := VStr "8A"]> ∅).

Definition soundnet_env : env :=
  env_of (λ _, Response 200 (Ok (VDict soundnet_doc))) no_audio.

Definition search_result (duration : Q) (url : string) : pyval :=
  VDict (<["trackTimeMillis" := VNum duration]> (<["previewUrl" := VStr url]> ∅)).

Definition search_doc (results : list pyval) : pyval :=
  VDict (<["resultCount" := VNum (inject_Z (Z.of_nat (length results)))]>
        (<["results" := VList results]> ∅)).



Definition rate_limited_env : env :=
  env_of (λ _, Response 429 (Raise JSONDecodeError)) no_audio.

Definition unreachable_env : env :=
  env_of (λ _, ConnectFail ClientError) no_audio.


(** The dictionaries that the branches of [process_track] return. *)
Definition no_preview_result (md : dict) : dict :=
  <["bpm" := VNum 0]> (<["status" := VStr "no_preview"]> md).

Definition analyzed_result (md : dict) (bpm key energy : pyval) : dict :=
  <["bpm" := bpm]> (<["key" := key]> (<["energy" := energy]>
  (<["status" := VStr "analyzed_audio"]> md))).

Definition error_result (md : dict) : dict :=
  <["bpm" := VNum 0]> (<["key" := VStr "?"]> (<["energy" := VNum 0]>
  (<["status" := VStr "error"]> md))).

Definition failed_download_result (md : dict) : dict :=
  <["bpm" := VNum 0]> (<["key" := VStr "?"]> (<["energy" := VNum 0]>
  (<["status" := VStr "failed_download"]> md))).

(** The keys that a result may set or overwrite. *)
Definition descriptor_keys : list string :=
  ["bpm"; "key"; "energy"; "status"; "source"].



Definition sample_track : dict :=
  <["id" := VStr "0DiWol3AO6WpXZgp0goxAV"]> (<["name" := VStr "One More Time"]>
  (<["artist" := VStr "Daft Punk"]> (<["duration_ms" := VNum 320357]> ∅))).

(** A track as the playlist parser and a re-analysis supply it: it already
    has descriptor fields. *)
Definition analysed_track : dict :=
  <["bpm" := VNum 123]> (<["key" := VStr "8A"]> (<["energy" := VNum 61]> sample_track)).


(** The percentage sent with the [completed_count]-th update. *)
Definition percent_of (total completed_count : nat) : Z :=
  py_int (inject_Z (Z.of_nat completed_count) / inject_Z (Z.of_nat total) * 100)%Q.


Definition update_event (total completed_count : nat) (result : dict) : event :=
  Update result (percent_of total completed_count)
         (Analyzed completed_count total (default VNone (result !! "name"))).


Definition track_named (name : string) : dict :=
  <["name" := VStr name]> (<["artist" := VStr "Daft Punk"]> ∅).


Definition linked_playlist : AnalyzeRequest :=
  {| playlist_link := Some "https://open.spotify.com/playlist/37i9dQZF1DX?si=1";
     playlist_id := None; access_token := "token"; tracks := None |}.

Definition playlist_item (name : string) : pyval :=
  VDict (<["track" :=
            VDict (<["id" := VStr name]> (<["name" := VStr name]>
                  (<["artists" := VList [VDict (<["name" := VStr "Daft Punk"]> ∅)]]>
                  (<["duration_ms" := VNum 200000]>
                  (<["album" := VDict (<["images" := VList []]> ∅)]>
                  (<["uri" := VStr name]> ∅))))))]> ∅).

(** ** Definitions for the further properties *)

(** The labels of the major table. *)
Definition major_labels : list string :=
  ["1B"; "2B"; "3B"; "4B"; "5B"; "6B"; "7B"; "8B"; "9B"; "10B"; "11B"; "12B"].

(** The labels of the minor table. *)
Definition minor_labels : list string :=
  ["1A"; "2A"; "3A"; "4A"; "5A"; "6A"; "7A"; "8A"; "9A"; "10A"; "11A"; "12A"].


(** First an empty result, then the results for the cleaned title. *)
Definition second_search_env : env :=
  env_of (λ n, match n with
               | 0 => Response 200 (Ok (search_doc []))
               | _ => Response 200 (Ok (search_doc [search_result 201000 "https://preview/2.m4a"]))
               end)
         no_audio.



(** A track that an earlier analysis left without preview. *)
Definition stale_track : dict := <["status" := VStr "no_preview"]> sample_track.

(** Audio that decodes: 70 beats per minute, the profile of the major
    template, a mean RMS of a quarter. *)
Definition steady_audio : audio :=
  {| load := Ok (); beat_track := Ok 70%Q;
     chroma_cqt := Ok (one_frame major_template); rms_mean := Ok (1 # 4)%Q |}.

(** No remote descriptor (404), one search result, and a download that
    decodes. *)
Definition analysable_env : env :=
  env_of (λ n, match n with
               | 0 => Response 404 (Raise JSONDecodeError)
               | 1 => Response 200 (Ok (search_doc [search_result 320000 "https://preview/1.m4a"]))
               | _ => Response 200 (Ok (VStr "m4a"))
               end)
         steady_audio.

(** The fields of a track parsed from a playlist item. *)
Definition parsed_keys : list string :=
  ["id"; "name"; "artist"; "duration_ms"; "image"; "uri"; "bpm"; "key"; "energy"].

(** A track as the parser leaves it: the nine fields, with the
    placeholders of a track that is not analysed yet. *)
Definition unanalysed (t : dict) : Prop :=
  (∀ k, is_Some (t !! k) ↔ k ∈ parsed_keys)
  ∧ t !! "bpm" = Some (VNum 0) ∧ t !! "key" = Some (VStr "?")
  ∧ t !! "energy" = Some (VNum 0).

Definition is_progress (ev : event) : bool :=
  match ev with Progress _ => true | _ => false end.

Definition is_update (ev : event) : bool :=
  match ev with Update _ _ _ => true | _ => false end.

(** The events that end a stream. *)
Definition is_terminal (ev : event) : bool :=
  match ev with Done _ | Error _ => true | _ => false end.

(** The request names no tracks, or no link. *)
Definition no_tracks (req : AnalyzeRequest) : Prop :=
  tracks req = None ∨ tracks req = Some [].

Definition no_link (req : AnalyzeRequest) : Prop :=
  playlist_link req = None ∨ playlist_link req = Some EmptyString.

(** The track parsed from [playlist_item name]. *)
Definition parsed_track (name : string) : dict :=
  <["id" := VStr name]> (<["name" := VStr name]> (<["artist" := VStr "Daft Punk"]>
  (<["duration_ms" := VNum 200000]> (<["image" := VNone]> (<["uri" := VStr name]>
  (<["bpm" := VNum 0]> (<["key" := VStr "?"]> (<["energy" := VNum 0]> ∅)))))))).

(** A track without artist, and a request that carries it in second
    place. *)
Definition nameless_artist : dict := <["name" := VStr "Untitled"]> ∅.

Definition broken_batch : AnalyzeRequest :=
  {| playlist_link := None; playlist_id := None; access_token := "token";
     tracks := Some [track_named "Aerodynamic"; nameless_artist] |}.

(** The batches that [create_playlist] cuts a list of URIs into. *)
Definition batches {A} (l : list A) : list (list A) :=
  map (CreatePlaylist.slice100 l) (CreatePlaylist.range_step (length l) 100).

(** A client whose calls succeed, apart from the additions listed in
    [failing]. *)
Definition spotify_client (failing : list nat) : CreatePlaylist.spotify :=
  {| CreatePlaylist.current_user := Ok (VDict (<["id" := VStr "user"]> ∅));
     CreatePlaylist.user_playlist_create :=
       Ok (VDict (<["id" := VStr "playlist"]>
                 (<["external_urls" :=
                      VDict (<["spotify" := VStr "https://open.spotify.com/playlist/1"]> ∅)]>
                  ∅)));
     CreatePlaylist.playlist_add_items :=
       λ k, if bool_decide (k ∈ failing) then Raise ClientError else Ok () |}.

Definition track_uri (k : nat) : pyval :=
  VStr (String (ascii_of_nat (65 + k `mod` 26)) EmptyString).

(** A request to store 250 tracks. *)
Definition sorted_request : CreatePlaylist.CreatePlaylistRequest :=
  {| CreatePlaylist.tracks := map (λ k, <["uri" := track_uri k]> ∅) (seq 0 250);
     CreatePlaylist.name := "Sorted";
     CreatePlaylist.access_token := "token" |}.

(** [c in s] for a character. *)
Fixpoint has_char (c : ascii) (s : string) : bool :=
  match s with
  | EmptyString => false
  | String c' s' => Ascii.eqb c' c || has_char c s'
  end.


(** * Properties *)

(** ** Comparisons *)

Lemma Qltb_spec a b : Qltb a b = true ↔ (a < b)%Q.
Proof.
  unfold Qltb. rewrite Qlt_alt. destruct (a ?= b)%Q; split; congruence.
Qed.

Lemma Qltb_false a b : Qltb a b = false ↔ (b <= a)%Q.
Proof.
  split.
  - intros H. apply Qnot_lt_le. intros Hlt. apply Qltb_spec in Hlt. congruence.
  - intros H. destruct (Qltb a b) eqn:E; [|done].
    apply Qltb_spec in E. exfalso. exact (Qle_not_lt _ _ H E).
Qed.

Lemma Qleb_spec a b : Qleb a b = true ↔ (a <= b)%Q.
Proof.
  unfold Qleb. rewrite Qle_alt. destruct (a ?= b)%Q; split; congruence.
Qed.

Lemma Qleb_false a b : Qleb a b = false ↔ (b < a)%Q.
Proof.
  split.
  - intros H. apply Qnot_le_lt. intros Hle. apply Qleb_spec in Hle. congruence.
  - intros H. destruct (Qleb a b) eqn:E; [|done].
    apply Qleb_spec in E. exfalso. exact (Qlt_not_le _ _ H E).
Qed.

(** ** [normalize_bpm] *)

Example normalize_bpm_45 : normalize_bpm (VNum 45) = Ok (VNum (900 # 10)).
Proof. reflexivity. Qed.
Example normalize_bpm_70 : normalize_bpm (VNum 70) = Ok (VNum (1400 # 10)).
Proof. reflexivity. Qed.
Example normalize_bpm_200 : normalize_bpm (VNum 200) = Ok (VNum (1000 # 10)).
Proof. reflexivity. Qed.
Example normalize_bpm_tiny : normalize_bpm (VNum (1 # 1000)) = Ok (VNum (1311 # 10)).
Proof. reflexivity. Qed.
Example normalize_bpm_12345 : normalize_bpm (VNum 12345) = Ok (VNum (964 # 10)).
Proof. reflexivity. Qed.
Example normalize_bpm_neg : normalize_bpm (VNum (-3)) = Ok (VNum 0).
Proof. reflexivity. Qed.
Example normalize_bpm_str : normalize_bpm (VStr "fast") = Raise TypeError.
Proof. reflexivity. Qed.

(** *** Termination of the two loops *)

Lemma pow2_succ n : (pow2 (S n) == 2 * pow2 n)%Q.
Proof.
  unfold pow2. rewrite Nat2Z.inj_succ, Z.pow_succ_r by lia.
  now rewrite inject_Z_mult.
Qed.

Lemma pow2_0 : (pow2 0 == 1)%Q.
Proof. reflexivity. Qed.

Lemma pow2_pos n : (0 < pow2 n)%Q.
Proof.
  unfold pow2. change 0%Q with (inject_Z 0). rewrite <- Zlt_Qlt.
  apply Z.pow_pos_nonneg; lia.
Qed.

Lemma pow2_add n m : (pow2 (n + m) == pow2 n * pow2 m)%Q.
Proof.
  unfold pow2. rewrite Nat2Z.inj_add, Z.pow_add_r by lia.
  now rewrite inject_Z_mult.
Qed.

Lemma pos_lt_pow2_size (p : positive) :
  (inject_Z (Zpos p) < pow2 (Pos.to_nat (Pos.size p)))%Q.
Proof.
  unfold pow2. rewrite <- Zlt_Qlt, positive_nat_Z.
  pose proof (Pos.size_gt p) as H.
  change 2%Z with (Zpos 2). rewrite <- Pos2Z.inj_pow. lia.
Qed.

Lemma doublings_enough (q : Q) : (0 < q → 90 <= q * pow2 (doublings q))%Q.
Proof.
  intros Hq. unfold doublings. rewrite pow2_add.
  pose proof (pos_lt_pow2_size (Qden q)) as Hden.
  set (s := pow2 (Pos.to_nat (Pos.size (Qden q)))) in *.
  assert (H128 : (pow2 7 == 128)%Q) by reflexivity. rewrite H128.
  assert (Hone : (1 <= q * inject_Z (Zpos (Qden q)))%Q).
  { destruct q as [n d]. unfold Qlt, Qle, Qmult, inject_Z in *. simpl in *. nia. }
  assert (Hmono : (q * inject_Z (Zpos (Qden q)) <= q * s)%Q).
  { apply Qmult_le_l; [done|]. now apply Qlt_le_weak. }
  nra.
Qed.

Lemma halvings_enough (q : Q) : (0 < q → q <= 180 * pow2 (halvings q))%Q.
Proof.
  intros Hq. unfold halvings.
  assert (Hnum : (0 < Qnum q)%Z).
  { destruct q as [n d]. unfold Qlt in Hq. simpl in *. lia. }
  pose proof (pos_lt_pow2_size (Z.to_pos (Qnum q))) as Hsz.
  rewrite Z2Pos.id in Hsz by done.
  set (s := pow2 _) in *.
  assert (Hle : (q <= inject_Z (Qnum q))%Q).
  { destruct q as [n d]. unfold Qle, inject_Z. simpl in *. nia. }
  lra.
Qed.

Lemma while_lt_90_runs (n : nat) (q : Q) :
  (90 <= q * pow2 n)%Q →
  while_loop (λ b, Qltb b 90) (λ b, b * 2)%Q q (while_lt_90 n q).
Proof.
  revert q. induction n as [|n IH]; intros q Hq.
  - simpl. apply while_exit. apply Qltb_false. rewrite pow2_0 in Hq. lra.
  - simpl. destruct (Qltb q 90) eqn:E.
    + apply while_iter; [done|]. apply IH. rewrite pow2_succ in Hq. lra.
    + now apply while_exit.
Qed.

Lemma Qhalf (q : Q) : (q / 2 == q * (1 # 2))%Q.
Proof. reflexivity. Qed.

Lemma while_gt_180_runs (n : nat) (q : Q) :
  (q <= 180 * pow2 n)%Q →
  while_loop (λ b, Qltb 180 b) (λ b, b / 2)%Q q (while_gt_180 n q).
Proof.
  revert q. induction n as [|n IH]; intros q Hq.
  - simpl. apply while_exit. apply Qltb_false. rewrite pow2_0 in Hq. lra.
  - simpl. destruct (Qltb 180 q) eqn:E.
    + apply while_iter; [done|]. apply IH. rewrite pow2_succ in Hq.
      rewrite Qhalf. lra.
    + now apply while_exit.
Qed.

(** *** What the loops compute *)

Lemma doubling_loop_range (q r : Q) :
  while_loop (λ b, Qltb b 90) (λ b, b * 2)%Q q r →
  (0 < q → 0 < r ∧ 90 <= r ∧ (r <= 180 ∨ r = q))%Q.
Proof.
  induction 1 as [s Hs | s s' Hs _ IH]; intros Hpos.
  - apply Qltb_false in Hs. auto.
  - apply Qltb_spec in Hs. destruct IH as (? & ? & [? | ->]); [lra|..].
    + auto.
    + repeat split; [lra..|]. left. lra.
Qed.

Lemma halving_loop_range (q r : Q) :
  while_loop (λ b, Qltb 180 b) (λ b, b / 2)%Q q r →
  (90 <= q → 90 <= r ∧ r <= 180)%Q.
Proof.
  induction 1 as [s Hs | s s' Hs _ IH]; intros Hpos.
  - apply Qltb_false in Hs. auto.
  - apply Qltb_spec in Hs. apply IH. rewrite Qhalf. lra.
Qed.

(** *** Rounding *)

Lemma round_half_even_bounds (q : Q) (a b : Z) :
  (inject_Z a <= q)%Q → (q <= inject_Z b)%Q →
  (a ≤ round_half_even q ≤ b)%Z.
Proof.
  intros Ha Hb. unfold round_half_even.
  pose proof (Qfloor_le q) as Hlo. pose proof (Qlt_floor q) as Hhi.
  set (f := Qfloor q) in *.
  assert (Hfa : (a ≤ f)%Z).
  { assert (inject_Z a < inject_Z (f + 1))%Q as H by lra.
    rewrite <- Zlt_Qlt in H. lia. }
  assert (Hfb : (f ≤ b)%Z).
  { assert (inject_Z f <= inject_Z b)%Q as H by lra.
    rewrite <- Zle_Qle in H. lia. }
  assert (Hup : (0 < q - inject_Z f)%Q → (f + 1 ≤ b)%Z).
  { intros Hfrac. assert (inject_Z f < inject_Z b)%Q as H by lra.
    rewrite <- Zlt_Qlt in H. lia. }
  destruct (q - inject_Z f ?= 1 # 2)%Q eqn:E.
  - apply Qeq_alt in E. destruct (Z.even f); [lia|].
    split; [lia|]. apply Hup. lra.
  - lia.
  - apply Qgt_alt in E. split; [lia|]. apply Hup. lra.
Qed.

Lemma round_half_even_inject (z : Z) : round_half_even (inject_Z z) = z.
Proof.
  unfold round_half_even. rewrite Qfloor_Z.
  assert ((inject_Z z - inject_Z z ?= 1 # 2)%Q = Lt) as ->; [|done].
  rewrite <- Qlt_alt. generalize (inject_Z z). intros x. lra.
Qed.

Lemma py_round1_range (q : Q) (a b : Z) :
  (inject_Z a <= q)%Q → (q <= inject_Z b)%Q →
  (inject_Z a <= py_round1 q ∧ py_round1 q <= inject_Z b)%Q.
Proof.
  intros Ha Hb. unfold py_round1.
  destruct (round_half_even_bounds (q * 10) (a * 10) (b * 10)) as [H1 H2].
  - rewrite inject_Z_mult. change (inject_Z 10) with 10%Q. lra.
  - rewrite inject_Z_mult. change (inject_Z 10) with 10%Q. lra.
  - unfold Qle, inject_Z. simpl. lia.
Qed.


(** *** The normalised tempo *)

Lemma normalize_bpm_num (b : Q) :
  (0 < b)%Q →
  normalize_bpm (VNum b) =
  Ok (VNum (py_round1 (while_gt_180 (halvings (while_lt_90 (doublings b) b))
                                    (while_lt_90 (doublings b) b)))).
Proof.
  intros Hb. unfold normalize_bpm. cbn [truthy as_num].
  assert (Qeq_bool b 0 = false) as ->.
  { apply not_true_is_false. intros H. apply Qeq_bool_iff in H. lra. }
  cbn [negb mbind res_bind].
  now assert (Qleb b 0 = false) as -> by now apply Qleb_false.
Qed.

(** On a positive number the function returns a one-decimal value of the
    canonical range; both loops have run to their exit. *)
Lemma normalize_bpm_pos (b : Q) :
  (0 < b)%Q →
  ∃ z : Z, normalize_bpm (VNum b) = Ok (VNum (z # 10)) ∧ (900 ≤ z ≤ 1800)%Z.
Proof.
  intros Hb. rewrite normalize_bpm_num by done.
  pose proof (while_lt_90_runs _ _ (doublings_enough b Hb)) as L1.
  destruct (doubling_loop_range _ _ L1 Hb) as (Hpos & H90 & _).
  set (b1 := while_lt_90 (doublings b) b) in *.
  pose proof (while_gt_180_runs _ _ (halvings_enough b1 Hpos)) as L2.
  destruct (halving_loop_range _ _ L2 H90) as [Hlo Hhi].
  set (b2 := while_gt_180 (halvings b1) b1) in *.
  exists (round_half_even (b2 * 10)). split; [done|].
  apply round_half_even_bounds.
  - change (inject_Z 900) with 900%Q. lra.
  - change (inject_Z 1800) with 1800%Q. lra.
Qed.



Lemma normalize_bpm_canonical (v r : pyval) :
  normalize_bpm v = Ok r → canonical_bpm r.
Proof.
  intros H.
  unfold normalize_bpm in H. destruct (negb (truthy v)) eqn:T.
  { injection H as <-. now left. }
  destruct (as_num v) as [b|e] eqn:N; [|done]. cbn [mbind res_bind] in H.
  destruct (Qleb b 0) eqn:L.
  { injection H as <-. now left. }
  apply Qleb_false in L. rewrite <- (normalize_bpm_num b L) in H.
  destruct (normalize_bpm_pos b L) as (z & Hz & Hr).
  rewrite Hz in H. injection H as <-. right. eauto.
Qed.



(** ** [chroma_to_key] *)

Example roll_major_1 :
  np_roll major_template 1 = [1; 1; 0; 1; 0; 1; 1; 0; 1; 0; 1; 0]%Q.
Proof. reflexivity. Qed.

Example key_c_major :
  chroma_to_key (one_frame [1; 0; 1; 0; 1; 1; 0; 1; 0; 1; 0; 1]%Q) = Ok "8B".
Proof. vm_compute. reflexivity. Qed.

Example key_a_minor_profile :
  chroma_to_key (one_frame [5; 0; 2; 0; 3; 1; 0; 2; 0; 6; 0; 1]%Q) = Ok "8B".
Proof. vm_compute. reflexivity. Qed.

(** The natural-minor template at root [r] is the major template at root
    [r + 3]: the major scan has already reached the same correlation, and
    the strict comparison keeps its label. *)
Example key_c_minor :
  chroma_to_key (one_frame [3; 0; 1; 2; 0; 1; 0; 2; 1; 0; 1; 0]%Q) = Ok "5B".
Proof. vm_compute. reflexivity. Qed.

Example key_zero :
  chroma_to_key (one_frame (replicate 12 0%Q)) = Ok "Unknown".
Proof. vm_compute. reflexivity. Qed.

Example key_short : chroma_to_key (one_frame [1; 2; 3]%Q) = Raise ValueError.
Proof. vm_compute. reflexivity. Qed.

(** *** Sums and deviations *)

Lemma Qsum_nonneg (l : list Q) : Forall (λ q, 0 <= q)%Q l → (0 <= Qsum l)%Q.
Proof.
  induction 1 as [|q l Hq _ IH]; simpl; [lra|]. lra.
Qed.

Lemma Qsum_neg (l : list Q) :
  l ≠ [] → Forall (λ q, q < 0)%Q l → (Qsum l < 0)%Q.
Proof.
  intros Hne Hall. induction Hall as [|q l Hq Hl IH]; [done|].
  simpl. destruct l as [|q' l'].
  - simpl. lra.
  - assert (Qsum (q' :: l') < 0)%Q by now apply IH. lra.
Qed.

Lemma Qsum_zero (l : list Q) : Forall (λ q, q == 0)%Q l → (Qsum l == 0)%Q.
Proof.
  induction 1 as [|q l Hq _ IH]; simpl; [reflexivity|]. rewrite Hq, IH. lra.
Qed.

Lemma Qsquare_nonneg (q : Q) : (0 <= q * q)%Q.
Proof. destruct q as [n d]. unfold Qle, Qmult. simpl. nia. Qed.

Lemma Qsum_squares_zero (m : Q) (l : list Q) :
  (Qsum (map (λ a, (a - m) * (a - m)) l) == 0)%Q → Forall (λ a, a == m)%Q l.
Proof.
  induction l as [|a l IH]; simpl; intros H; [constructor|].
  assert (0 <= Qsum (map (λ a, (a - m) * (a - m)) l))%Q as Hrest.
  { apply Qsum_nonneg, Forall_map, Forall_forall. intros x _. simpl.
    apply Qsquare_nonneg. }
  pose proof (Qsquare_nonneg (a - m)) as Hsq.
  constructor.
  - assert ((a - m) * (a - m) == 0)%Q as Hz by lra.
    apply Qmult_integral in Hz. lra.
  - apply IH. lra.
Qed.

Lemma cross_diag (x : list Q) :
  cross x x = Qsum (map (λ a, (a - mean x) * (a - mean x))%Q x).
Proof. unfold cross. now rewrite zip_with_diag. Qed.

Lemma cross_diag_nonneg (x : list Q) : (0 <= cross x x)%Q.
Proof.
  rewrite cross_diag. apply Qsum_nonneg, Forall_map, Forall_forall.
  intros a _. simpl. apply Qsquare_nonneg.
Qed.

Lemma cross_diag_varies (x : list Q) : profile_varies x → (0 < cross x x)%Q.
Proof.
  intros (a & b & Ha & Hb & Hab).
  destruct (Qlt_le_dec 0 (cross x x)) as [|Hle]; [done|]. exfalso.
  assert (cross x x == 0)%Q as Hz by (pose proof (cross_diag_nonneg x); lra).
  rewrite cross_diag in Hz. apply Qsum_squares_zero in Hz.
  rewrite Forall_forall in Hz. apply Hab.
  rewrite (Hz a Ha), (Hz b Hb). reflexivity.
Qed.

Lemma cross_diag_zero (x : list Q) :
  Forall (λ a, a == 0)%Q x → (cross x x == 0)%Q.
Proof.
  intros Hall. rewrite cross_diag.
  assert (mean x == 0)%Q as Hm.
  { unfold mean. rewrite (Qsum_zero _ Hall). unfold Qdiv. lra. }
  apply Qsum_zero, Forall_map. eapply Forall_impl; [exact Hall|].
  intros a Ha. simpl. rewrite Ha, Hm. lra.
Qed.

(** *** The templates *)

Lemma np_roll_length {A} (l : list A) (k : nat) : length (np_roll l k) = length l.
Proof.
  unfold np_roll. rewrite length_app, length_drop, length_take. lia.
Qed.

(** The twelve rotations of the major template add up to the constant
    vector 7, so the deviations of any profile from its mean sum to zero
    against them. *)
Lemma cross_roll_sum (x : list Q) :
  length x = 12%nat →
  (Qsum (map (λ root, cross x (np_roll major_template root)) (seq 0 12)) == 0)%Q.
Proof.
  intros Hlen.
  do 13 (destruct x as [|? x]; try discriminate Hlen).
  cbn [seq map]. unfold np_roll. cbn -[cross Qsum].
  unfold cross, mean. cbn [zip_with Qsum foldr length].
  field.
Qed.

Lemma template_variance_pos :
  Forall (λ root, 0 < cross (np_roll major_template root)
                            (np_roll major_template root))%Q (seq 0 12)
  ∧ Forall (λ root, 0 < cross (np_roll minor_template root)
                              (np_roll minor_template root))%Q (seq 0 12).
Proof. split; repeat constructor. Qed.

(** *** The two scans *)

Lemma camelot_tables_labels :
  (∀ root k, major_camelot !! root = Some k → k ∈ camelot_labels)
  ∧ (∀ root k, minor_camelot !! root = Some k → k ∈ camelot_labels).
Proof.
  split; intros root k H; apply elem_of_list_to_map_2 in H;
    repeat (apply elem_of_cons in H as [[= -> ->]|H];
            [unfold camelot_labels; set_solver|]);
    now apply elem_of_nil in H.
Qed.

Lemma camelot_tables_defined :
  Forall (λ root, is_Some (major_camelot !! root)) (seq 0 12)
  ∧ Forall (λ root, is_Some (minor_camelot !! root)) (seq 0 12).
Proof. split; repeat constructor; vm_compute; eauto. Qed.

Lemma corrcoef_roll (x t : list Q) (root : nat) :
  length x = length t →
  corrcoef x (np_roll t root) = Ok (pearson x (np_roll t root)).
Proof.
  intros Hlen. unfold corrcoef. rewrite np_roll_length, Hlen.
  now rewrite Nat.eqb_refl.
Qed.

Section scan.
Variables (t : list Q) (cam : gmap nat string) (x : list Q).
Hypothesis Hlen : length x = length t.
Hypothesis Hcam : ∀ root k, cam !! root = Some k → k ∈ camelot_labels.

Lemma key_scan_eq (st : corr * string) (root : nat) :
  key_scan t cam x st root =
  let c := pearson x (np_roll t root) in
  if corr_gt c st.1 then k ← getitem cam root; Ok (c, k) else Ok st.
Proof using Hlen.
  unfold key_scan. now rewrite corrcoef_roll by done.
Qed.

(** One iteration either leaves the state alone or stores the label of
    the root, with a correlation that beats the previous maximum. *)
Lemma key_scan_cases (st st' : corr * string) (root : nat) :
  key_scan t cam x st root = Ok st' →
  (corr_gt (pearson x (np_roll t root)) st.1 = false ∧ st' = st)
  ∨ (corr_gt (pearson x (np_roll t root)) st.1 = true
     ∧ st'.2 ∈ camelot_labels).
Proof using Hlen Hcam.
  rewrite key_scan_eq. cbv zeta.
  destruct (corr_gt _ _) eqn:E.
  - unfold getitem. destruct (cam !! root) as [k|] eqn:Ek; [|done].
    cbn [mbind res_bind]. intros [= <-]. right. split; [done|]. simpl. eauto.
  - intros [= <-]. now left.
Qed.

Lemma scan_keeps_label (roots : list nat) (st st' : corr * string) :
  for_in roots (key_scan t cam x) st = Ok st' →
  st.2 ∈ camelot_labels → st'.2 ∈ camelot_labels.
Proof using Hlen Hcam.
  revert st. induction roots as [|root roots IH]; intros st; simpl.
  - now intros [= <-].
  - destruct (key_scan t cam x st root) as [st1|e] eqn:E; [|done].
    cbn [mbind res_bind]. intros Hrest Hst. apply (IH _ Hrest).
    destruct (key_scan_cases _ _ _ E) as [[_ ->]|[_ ?]]; done.
Qed.

(** A scan that ends without a label has met no correlation above the
    maximum it started from. *)
Lemma scan_unlabelled (roots : list nat) (st st' : corr * string) :
  for_in roots (key_scan t cam x) st = Ok st' →
  st'.2 ∈ camelot_labels
  ∨ (st' = st
     ∧ Forall (λ root, corr_gt (pearson x (np_roll t root)) st.1 = false) roots).
Proof using Hlen Hcam.
  revert st. induction roots as [|root roots IH]; intros st; simpl.
  - intros [= <-]. right. split; [done|constructor].
  - destruct (key_scan t cam x st root) as [st1|e] eqn:E; [|done].
    cbn [mbind res_bind]. intros Hrest.
    destruct (key_scan_cases _ _ _ E) as [[Hgt ->]|[_ Hlab]].
    + destruct (IH _ Hrest) as [?|[-> Hall]]; [now left|].
      right. split; [done|]. now constructor.
    + left. eapply scan_keeps_label; eauto.
Qed.

Lemma scan_returns (roots : list nat) (st : corr * string) :
  Forall (λ root, is_Some (cam !! root)) roots →
  ∃ st', for_in roots (key_scan t cam x) st = Ok st'.
Proof using Hlen.
  intros Hdef. revert st.
  induction Hdef as [|root roots [k Hk] _ IH]; intros st; cbn [for_in]; [eauto|].
  rewrite key_scan_eq. cbv zeta. unfold getitem. rewrite Hk.
  destruct (corr_gt _ _); cbn [mbind res_bind]; apply IH.
Qed.

(** With a NaN correlation at every root the state never changes. *)
Lemma scan_nan (roots : list nat) (st : corr * string) :
  Forall (λ root, pearson x (np_roll t root) = NaN) roots →
  for_in roots (key_scan t cam x) st = Ok st.
Proof using Hlen.
  induction 1 as [|root roots Hnan _ IH]; cbn [for_in]; [done|].
  rewrite key_scan_eq, Hnan. cbn [mbind res_bind corr_gt]. exact IH.
Qed.
End scan.

Lemma pearson_nan (x y : list Q) : (cross x x == 0)%Q → pearson x y = NaN.
Proof.
  intros Hz. unfold pearson.
  assert (Qeq_bool (cross x x * cross y y) 0 = true) as ->; [|done].
  apply Qeq_bool_iff. rewrite Hz. lra.
Qed.

(** Above [-1] as soon as the covariance is not negative. *)
Lemma pearson_not_above (x y : list Q) :
  (0 < cross x x)%Q → (0 < cross y y)%Q →
  corr_gt (pearson x y) (Corr (-1)) = false → (cross x y < 0)%Q.
Proof.
  intros Hx Hy. unfold pearson.
  assert (0 < cross x x * cross y y)%Q as Hd by nra.
  set (d := (cross x x * cross y y)%Q) in *.
  assert (Qeq_bool d 0 = false) as ->.
  { apply not_true_is_false. intros H. apply Qeq_bool_iff in H. lra. }
  cbn [corr_gt]. intros Hgt. apply Qltb_false in Hgt.
  destruct (Qlt_le_dec (cross x y) 0) as [|Hpos]; [done|]. exfalso.
  assert (0 <= cross x y * Qabs (cross x y) / d)%Q as Hs.
  { rewrite Qabs_pos by done. apply Qle_shift_div_l; [done|].
    pose proof (Qsquare_nonneg (cross x y)). lra. }
  revert Hgt. unfold clip.
  destruct (Qltb _ (-1)) eqn:E1; [apply Qltb_spec in E1; lra|].
  destruct (Qltb 1 _) eqn:E2; lra.
Qed.

(** A profile with two different bins is labelled by the major scan. *)
Lemma major_scan_labels (x : list Q) (st : corr * string) :
  length x = 12%nat → profile_varies x →
  for_in (seq 0 12) (key_scan major_template major_camelot x)
         (Corr (-1), "Unknown") = Ok st →
  st.2 ∈ camelot_labels.
Proof.
  intros Hlen Hvar Hscan.
  destruct (scan_unlabelled major_template major_camelot x Hlen
              (proj1 camelot_tables_labels) _ _ _ Hscan) as [|[_ Hall]]; [done|].
  exfalso. pose proof (cross_diag_varies x Hvar) as Hx.
  pose proof (cross_roll_sum x Hlen) as Hsum.
  assert (Qsum (map (λ root, cross x (np_roll major_template root)) (seq 0 12)) < 0)%Q.
  { apply Qsum_neg; [done|]. apply Forall_map.
    pose proof (proj1 template_variance_pos) as Hy.
    revert Hall Hy. generalize (seq 0 12). intros roots.
    induction 1 as [|root roots Hr _ IH]; [constructor|].
    intros Hy. apply Forall_cons in Hy as [Hy1 Hy2].
    constructor; [|now apply IH]. simpl in *.
    now apply pearson_not_above. }
  lra.
Qed.

(** *** The estimated key *)

Lemma chroma_to_key_eq (chroma : list (list Q)) :
  chroma_to_key chroma =
  st ← for_in (seq 0 12)
         (key_scan major_template major_camelot (np_sum_axis1 chroma))
         (Corr (-1), "Unknown");
  st ← for_in (seq 0 12)
         (key_scan minor_template minor_camelot (np_sum_axis1 chroma)) st;
  Ok st.2.
Proof. reflexivity. Qed.

(** C1, as the code has it. On a chromagram of twelve rows the estimator
    never raises and returns a Camelot label or the string ["Unknown"];
    it returns one of the 24 Camelot labels whenever two bins of the
    pitch-class profile differ, and ["Unknown"] on the all-zero profile. *)
Theorem chroma_to_key_labels (chroma : list (list Q)) :
  length chroma = 12%nat →
  (∃ k, chroma_to_key chroma = Ok k ∧ (k ∈ camelot_labels ∨ k = "Unknown"))
  ∧ (profile_varies (np_sum_axis1 chroma) →
     ∃ k, chroma_to_key chroma = Ok k ∧ k ∈ camelot_labels)
  ∧ (Forall (λ q, q == 0)%Q (np_sum_axis1 chroma) →
     chroma_to_key chroma = Ok "Unknown").
Proof.
  intros Hrows. rewrite chroma_to_key_eq.
  assert (length (np_sum_axis1 chroma) = 12%nat) as Hlen.
  { unfold np_sum_axis1. now rewrite length_map. }
  set (x := np_sum_axis1 chroma) in *.
  destruct camelot_tables_labels as [Hmaj Hmin].
  destruct camelot_tables_defined as [Dmaj Dmin].
  destruct (scan_returns major_template major_camelot x Hlen (seq 0 12)
              (Corr (-1), "Unknown") Dmaj) as [st1 H1].
  destruct (scan_returns minor_template minor_camelot x Hlen (seq 0 12)
              st1 Dmin) as [st2 H2].
  rewrite H1. cbn [mbind res_bind]. rewrite H2. cbn [mbind res_bind].
  split; [|split].
  - exists st2.2. split; [done|].
    destruct (scan_unlabelled minor_template _ _ Hlen Hmin _ _ _ H2) as [|[-> _]];
      [now left|].
    destruct (scan_unlabelled major_template _ _ Hlen Hmaj _ _ _ H1) as [|[-> _]];
      [now left|].
    now right.
  - intros Hvar. exists st2.2. split; [done|].
    eapply (scan_keeps_label minor_template _ _ Hlen Hmin); [exact H2|].
    now apply (major_scan_labels x).
  - intros Hzero. pose proof (cross_diag_zero x Hzero) as Hz.
    rewrite scan_nan in H1 by (done || (apply Forall_forall; intros; now apply pearson_nan)).
    injection H1 as <-.
    rewrite scan_nan in H2 by (done || (apply Forall_forall; intros; now apply pearson_nan)).
    now injection H2 as <-.
Qed.

Lemma chroma_to_key_labels_witness :
  let chroma := one_frame [5; 0; 2; 0; 3; 1; 0; 2; 0; 6; 0; 1]%Q in
  length chroma = 12%nat ∧ profile_varies (np_sum_axis1 chroma)
  ∧ ∃ k, chroma_to_key chroma = Ok k ∧ k ∈ camelot_labels.
Proof.
  intros chroma.
  assert (profile_varies (np_sum_axis1 chroma)) as Hvar.
  { exists (5 + 0)%Q, (0 + 0)%Q. repeat split.
    - apply list_elem_of_here.
    - apply list_elem_of_further, list_elem_of_here.
    - discriminate. }
  split; [reflexivity|]. split; [exact Hvar|].
  exact (proj1 (proj2 (chroma_to_key_labels chroma eq_refl)) Hvar).
Defined.

(** C1 as stated fails on the all-zero profile: every correlation is NaN,
    no comparison succeeds, and the initial ["Unknown"] is returned. *)
Lemma chroma_to_key_zero_profile :
  let p := replicate 12 0%Q in
  length p = 12%nat ∧ Forall (λ q, 0 <= q)%Q p
  ∧ chroma_to_key (one_frame p) = Ok "Unknown"
  ∧ "Unknown" ∉ camelot_labels.
Proof.
  cbv zeta. split; [reflexivity|]. split; [|split].
  - apply Forall_replicate. lra.
  - vm_compute. reflexivity.
  - unfold camelot_labels. rewrite !not_elem_of_cons.
    repeat split; try discriminate. apply not_elem_of_nil.
Qed.

(** ** Remote descriptor lookup: [fetch_soundnet] *)

(** Case analysis on a status that is matched against the literal 200:
    closes the goals where it is another number and leaves the one where it
    is 200. *)
Ltac status_is_200 status :=
  let p := fresh "p" in
  destruct status as [|p|p]; try done;
  do 8 (destruct p as [p|p|]; try done).

Section soundnet.
Variable float_of_string : string → option Q.

Lemma try_io_handled {A} (body : IO A) (a : A) (s : io_state) :
  ∃ r s', try_io body (λ _, mret a) s = (Ok r, s').
Proof.
  unfold try_io. destruct (body s) as [[r|e] s']; eauto.
Qed.

Lemma fetch_soundnet_returns (w : env) (id : pyval) (s : io_state) :
  ∃ r s', fetch_soundnet float_of_string w id s = (Ok r, s').
Proof. apply try_io_handled. Qed.

Lemma fetch_soundnet_eq (w : env) (id : pyval) (s : io_state) :
  (fetch_soundnet float_of_string w id s).1 =
  match net w (sent s) with
  | Response 200 (Ok data) =>
      match soundnet_descriptor float_of_string data with
      | Ok r => Ok r
      | Raise _ => Ok None
      end
  | _ => Ok None
  end.
Proof.
  unfold fetch_soundnet, try_io, session_get, mbind, io_bind.
  destruct (net w (sent s)) as [e|status body]; [done|].
  destruct (status =? 200)%Z eqn:E.
  - apply Z.eqb_eq in E as ->. unfold lift.
    destruct body as [data|e]; [|done].
    now destruct (soundnet_descriptor float_of_string data) as [r|e].
  - assert (status ≠ 200%Z) as Hne by now apply Z.eqb_neq.
    status_is_200 status.
Qed.

(** What a returned descriptor holds. *)
Lemma soundnet_descriptor_some (data : pyval) (descr : dict) :
  soundnet_descriptor float_of_string data = Ok (Some descr) →
  ∃ d bpm energy,
    data = VDict d ∧ is_Some (d !! "tempo")
    ∧ normalize_bpm (default VNone (d !! "tempo")) = Ok bpm
    ∧ py_float float_of_string (default (VNum 50) (d !! "energy")) = Ok energy
    ∧ descr = <["bpm" := bpm]>
              (<["key" := if truthy (default VNone (d !! "camelot"))
                          then default VNone (d !! "camelot") else VStr "?"]>
              (<["energy" := VNum energy]>
              (<["source" := VStr "soundnet"]> ∅))).
Proof.
  unfold soundnet_descriptor.
  destruct (py_in "tempo" data) as [has|e] eqn:Hin; [|done].
  cbn [mbind res_bind]. destruct has; [|done].
  destruct data as [| | | |l|d]; try done.
  cbn [py_get mbind res_bind].
  destruct (normalize_bpm _) as [bpm|e] eqn:Hbpm; [|done].
  cbn [mbind res_bind].
  destruct (py_float _ _) as [energy|e] eqn:Hen; [|done].
  cbn [mbind res_bind]. intros [= <-].
  exists d, bpm, energy. repeat split; try done.
  simpl in Hin. injection Hin as Hin. now apply bool_decide_eq_true in Hin.
Qed.
End soundnet.

Section soundnet_spec.
Variable float_of_string : string → option Q.

(** C6. The lookup never raises: a request that fails, a body that does
    not parse, a status other than 200 and a document without [tempo]
    all give [None]. A returned descriptor takes its key from the
    document's [camelot] value when there is one ([?] when the field
    is missing or empty), its energy is 50 when the document has no
    [energy], and its tempo is the normalised [tempo] of the document. *)
Theorem fetch_soundnet_spec (w : env) (id : pyval) (s : io_state) :
  let r := (fetch_soundnet float_of_string w id s).1 in
  (∃ v s', fetch_soundnet float_of_string w id s = (Ok v, s'))
  ∧ (∀ e, net w (sent s) = ConnectFail e → r = Ok None)
  ∧ (∀ status e, net w (sent s) = Response status (Raise e) → r = Ok None)
  ∧ (∀ status body, net w (sent s) = Response status body →
       status ≠ 200%Z → r = Ok None)
  ∧ (∀ d : dict, net w (sent s) = Response 200 (Ok (VDict d)) →
       d !! "tempo" = None → r = Ok None)
  ∧ (∀ descr, r = Ok (Some descr) →
       ∃ d : dict,
         net w (sent s) = Response 200 (Ok (VDict d))
         ∧ descr !! "key" =
             Some (match d !! "camelot" with
                   | Some camelot => if truthy camelot then camelot else VStr "?"
                   | None => VStr "?"
                   end)
         ∧ (d !! "energy" = None → descr !! "energy" = Some (VNum 50))
         ∧ ∃ bpm, descr !! "bpm" = Some bpm
                  ∧ normalize_bpm (default VNone (d !! "tempo")) = Ok bpm).
Proof.
  intros r. subst r. rewrite fetch_soundnet_eq.
  split; [apply fetch_soundnet_returns|].
  split; [now intros e ->|].
  split. { intros status e ->. status_is_200 status. }
  split. { intros status body -> Hne. status_is_200 status. }
  split. { intros d -> Hd. unfold soundnet_descriptor. cbn [py_in].
           rewrite Hd. now rewrite bool_decide_eq_false_2 by (intros [? [=]]). }
  intros descr Hr.
  destruct (net w (sent s)) as [e|status body]; [done|].
  status_is_200 status.
  destruct body as [data|e]; [|done].
  destruct (soundnet_descriptor float_of_string data) as [[descr'|]|e] eqn:Hd;
    try done.
  injection Hr as ->.
  apply soundnet_descriptor_some in Hd
    as (d & bpm & energy & -> & Htempo & Hbpm & Henergy & ->).
  exists d. split; [done|]. split; [|split].
  - rewrite lookup_insert_ne, lookup_insert_eq by done.
    now destruct (d !! "camelot").
  - intros Hnone. rewrite Hnone in Henergy. injection Henergy as <-.
    now rewrite !lookup_insert_ne, lookup_insert_eq by done.
  - exists bpm. now rewrite lookup_insert_eq.
Qed.
End soundnet_spec.

Lemma fetch_soundnet_spec_witness :
  let descr : dict :=
    <["bpm" := VNum (1400 # 10)]> (<["key" := VStr "8A"]>
    (<["energy" := VNum 50]> (<["source" := VStr "soundnet"]> ∅))) in
  (fetch_soundnet (λ _, None) soundnet_env VNone io_start).1 = Ok (Some descr)
  ∧ descr !! "key" = Some (VStr "8A")
  ∧ descr !! "energy" = Some (VNum 50).
Proof.
  intros descr.
  assert ((fetch_soundnet (λ _, None) soundnet_env VNone io_start).1
          = Ok (Some descr)) as Hr by (vm_compute; reflexivity).
  split; [exact Hr|].
  destruct (fetch_soundnet_spec (λ _, None) soundnet_env VNone io_start)
    as (_ & _ & _ & _ & _ & Hdescr).
  destruct (Hdescr descr Hr) as (d & Hnet & Hkey & Henergy & _).
  injection Hnet as <-. split; [exact Hkey|]. now apply Henergy.
Defined.

(** ** Preview locator: [fetch_preview_url] *)

Example clean_str_example : clean_str "Don't Stop (Remix) 2" = "Dont Stop Remix 2".
Proof. reflexivity. Qed.


Section preview.
Variable float_of_string : string → option Q.




Lemma search_attempt_returns (w : env) (name dur : pyval) (attempt : nat)
    (s : io_state) :
  ∃ c s', search_attempt w name dur attempt s = (Ok c, s')
          ∧ sent s < sent s' ≤ sent s + 2
          ∧ paused attempt c s s'.
Proof.
  unfold search_attempt, try_io, session_get.
  unfold mbind at 1. unfold io_bind at 1.
  destruct (net w (sent s)) as [e|status body].
  { do 2 eexists. split; [reflexivity|]. simpl. split; [lia|eauto]. }
  destruct (bool_decide (status ∈ [403; 429]%Z)).
  { do 2 eexists. split; [reflexivity|]. simpl. split; [lia|eauto]. }
  destruct (negb (status =? 200)%Z).
  { do 2 eexists. split; [reflexivity|]. simpl. split; [lia|eauto]. }
  unfold lift, mbind, io_bind. destruct body as [data|e].
  2:{ do 2 eexists. split; [reflexivity|]. simpl. split; [lia|eauto]. }
  set (s1 := {| sent := S (sent s); slept := slept s |}).
  assert (∃ r s2, cleaned_search w name data s1 = (r, s2)
                  ∧ sent s1 ≤ sent s2 ≤ sent s1 + 1 ∧ slept s2 = slept s1)
    as (r & s2 & -> & Hsent & Hslept).
  { unfold cleaned_search, lift, mbind, io_bind.
    destruct (py_getitem data "resultCount") as [count|e]; [|eauto with lia].
    destruct (py_eq0 count); [|eauto with lia].
    destruct name as [| | |n| |]; eauto with lia.
    destruct (negb (String.eqb (clean_str n) n)); [|eauto with lia].
    unfold session_get. destruct (net w (sent s1)) as [e|status' body'].
    { do 2 eexists. split; [reflexivity|]. simpl. split; [lia|done]. }
    destruct (status' =? 200)%Z; do 2 eexists;
      (split; [reflexivity|]); simpl; (split; [lia|done]). }
  simpl in Hsent, Hslept.
  destruct r as [data'|e].
  2:{ do 2 eexists. split; [reflexivity|]. simpl. rewrite Hslept.
      split; [lia|eauto]. }
  destruct (py_getitem data' "resultCount") as [count|e].
  2:{ do 2 eexists. split; [reflexivity|]. simpl. rewrite Hslept.
      split; [lia|eauto]. }
  destruct (py_eq0 count).
  { do 2 eexists. split; [reflexivity|]. simpl. split; [lia|done]. }
  destruct (select_preview data' dur) as [url|e].
  - do 2 eexists. split; [reflexivity|]. simpl. split; [lia|done].
  - do 2 eexists. split; [reflexivity|]. simpl. rewrite Hslept.
    split; [lia|eauto].
Qed.

(** The attempts [a, a+1, ..., a+n-1]: the pauses slept, one per attempt
    that did not return. *)
Lemma search_attempts_return (w : env) (name dur : pyval) (a n : nat)
    (s : io_state) :
  ∃ v s' delays,
    search_attempts w name dur (seq a n) s = (Ok v, s')
    ∧ sent s' ≤ sent s + 2 * n
    ∧ slept s' = slept s ++ delays
    ∧ length delays ≤ n
    ∧ (length delays = n → v = VNone)
    ∧ (∀ i d, delays !! i = Some d →
         d = 1%Q ∨ d = inject_Z (2 ^ Z.of_nat (a + i))).
Proof.
  revert a s. induction n as [|n IH]; intros a s.
  - exists VNone, s, []. rewrite app_nil_r. repeat split; try done. lia.
  - cbn [seq search_attempts]. unfold mbind, io_bind.
    destruct (search_attempt_returns w name dur a s)
      as (c & s1 & -> & Hsent & Hpause).
    destruct c as [|v]; cbn [paused] in Hpause.
    + destruct (IH (S a) s1) as (v & s2 & delays & -> & Hsent2 & Hslept & Hlen & Hnone & Hd).
      assert (∃ d0, slept s1 = slept s ++ [d0]
                    ∧ (d0 = 1%Q ∨ d0 = inject_Z (2 ^ Z.of_nat a)))
        as (d0 & Hs1 & Hd0) by (destruct Hpause; eauto).
      exists v, s2, (d0 :: delays). split; [reflexivity|].
      split; [lia|]. split.
      { rewrite Hslept, Hs1, <- app_assoc. reflexivity. }
      split; [simpl; lia|]. split.
      { simpl. intros Hn. apply Hnone. lia. }
      intros [|i] d Hi.
      * injection Hi as <-. now rewrite Nat.add_0_r.
      * replace (a + S i) with (S a + i) by lia. now apply Hd.
    + exists v, s1, []. split; [reflexivity|]. rewrite app_nil_r.
      split; [lia|]. split; [done|]. split; [simpl; lia|].
      split; [done|]. intros i d Hi. done.
Qed.
End preview.

(** The scenarios of the specification: with candidates 9000 ms and
    3500 ms away the strict tier takes the nearer one although it comes
    second; a lone candidate 9000 ms away is taken by the relaxed tier;
    without a duration the first candidate is taken. *)
Example tier_strict :
  select_preview (search_doc [search_result 209000 "far"; search_result 203500 "near"])
                 (VNum 200000) = Ok (VStr "near").
Proof. vm_compute. reflexivity. Qed.

Example tier_relaxed :
  select_preview (search_doc [search_result 60000 "other"; search_result 209000 "far"])
                 (VNum 200000) = Ok (VStr "far").
Proof. vm_compute. reflexivity. Qed.

Example tier_first :
  select_preview (search_doc [search_result 209000 "far"; search_result 203500 "near"])
                 VNone = Ok (VStr "far").
Proof. vm_compute. reflexivity. Qed.

(** A candidate exactly 4000 ms away is not in the strict tier. *)
Example tier_boundary :
  select_preview (search_doc [search_result 60000 "other"; search_result 204000 "edge";
                              search_result 203999 "in"])
                 (VNum 200000) = Ok (VStr "in").
Proof. vm_compute. reflexivity. Qed.





(** A refusal is retried, another error status is not: the function
    returns [None] at once. *)
Example server_error_not_retried :
  fetch_preview_url (env_of (λ _, Response 500 (Raise JSONDecodeError)) no_audio)
                    (VStr "artist") (VStr "title") VNone io_start
  = (Ok VNone, {| sent := 1; slept := [] |}).
Proof. reflexivity. Qed.

(** A body that does not parse is an exception like the others: one second,
    then the next attempt. *)
Example parse_error_retried :
  fetch_preview_url (env_of (λ _, Response 200 (Raise JSONDecodeError)) no_audio)
                    (VStr "artist") (VStr "title") VNone io_start
  = (Ok VNone, {| sent := 3; slept := [1; 1; 1]%Q |}).
Proof. reflexivity. Qed.


(** ** Signal analyzer: [analyze_audio_file] *)


Lemma analyze_audio_file_shape (a : audio) :
  ∃ bpm key energy,
    analyze_audio_file a
    = <["bpm" := bpm]> (<["key" := key]> (<["energy" := energy]> ∅))
    ∧ canonical_bpm bpm
    ∧ (raises (analyze_audio a) →
       bpm = VNum 0 ∧ key = VStr "???" ∧ energy = VNum 0).
Proof.
  unfold analyze_audio_file. destruct (analyze_audio a) as [d|e] eqn:E.
  - unfold analyze_audio in E.
    destruct (load a); [|done]. cbn [mbind res_bind] in E.
    destruct (beat_track a) as [tempo|]; [|done]. cbn [mbind res_bind] in E.
    destruct (chroma_cqt a) as [chroma|]; [|done]. cbn [mbind res_bind] in E.
    destruct (chroma_to_key chroma) as [key|]; [|done]. cbn [mbind res_bind] in E.
    destruct (rms_mean a) as [rms|]; [|done]. cbn [mbind res_bind] in E.
    destruct (normalize_bpm (VNum tempo)) as [bpm|] eqn:Hbpm; [|done].
    cbn [mbind res_bind] in E. injection E as <-.
    do 3 eexists. split; [reflexivity|]. split.
    + eapply normalize_bpm_canonical; eauto.
    + intros [e' [=]].
  - do 3 eexists. split; [reflexivity|]. split; [now left|done].
Qed.

Example analyze_c_major :
  analyze_audio_file
    {| load := Ok (); beat_track := Ok 70%Q;
       chroma_cqt := Ok (one_frame [1; 0; 1; 0; 1; 1; 0; 1; 0; 1; 0; 1]%Q);
       rms_mean := Ok (123 # 1000)%Q |}
  = <["bpm" := VNum (1400 # 10)]> (<["key" := VStr "8B"]>
    (<["energy" := VNum (123 # 10)]> ∅)).
Proof. vm_compute. reflexivity. Qed.

(** ** Track resolver: [process_track] *)

Lemma analysis_lookups (bpm key energy : pyval) :
  let analysis : dict :=
    <["bpm" := bpm]> (<["key" := key]> (<["energy" := energy]> ∅)) in
  analysis !! "bpm" = Some bpm ∧ analysis !! "key" = Some key
  ∧ analysis !! "energy" = Some energy.
Proof.
  cbv zeta. rewrite lookup_insert_eq, (lookup_insert_ne _ "bpm" "key") by done.
  rewrite lookup_insert_eq, !(lookup_insert_ne _ _ "energy") by done.
  now rewrite lookup_insert_eq.
Qed.

Lemma download_and_analyze_cases (w : env) (md : dict) (s : io_state) :
  ∃ o, download_and_analyze w md s
       = (Ok o, {| sent := S (sent s); slept := slept s |})
    ∧ match net w (sent s) with
      | ConnectFail _ => o = Some (error_result md)
      | Response status body =>
          if (status =? 200)%Z then
            match body, tmp_write w, unlink w with
            | Ok _, Ok _, Ok _ =>
                let analysis := analyze_audio_file (librosa w) in
                o = Some (analyzed_result md
                            (default VNone (analysis !! "bpm"))
                            (default VNone (analysis !! "key"))
                            (default VNone (analysis !! "energy")))
            | _, _, _ => o = Some (error_result md)
            end
          else o = None
      end.
Proof.
  unfold download_and_analyze, try_io, session_get, mbind, io_bind, lift.
  destruct (net w (sent s)) as [e|status body]; [by eexists|].
  destruct (status =? 200)%Z; [|by eexists].
  destruct body as [bytes|e]; [|by eexists].
  destruct (tmp_write w) as [[]|e]; [|by eexists].
  destruct (unlink w) as [[]|e]; [|by eexists].
  destruct (analyze_audio_file_shape (librosa w)) as (bpm & key & energy & -> & _).
  destruct (analysis_lookups bpm key energy) as (Hb & Hk & He).
  unfold dict_getitem. rewrite Hb, Hk, He. by eexists.
Qed.

Section resolver.
Variable float_of_string : string → option Q.

Lemma process_track_eq (w : env) (md : dict) (s : io_state) (artist name : pyval) :
  md !! "artist" = Some artist → md !! "name" = Some name →
  process_track float_of_string w md s =
  let '(found, s1) :=
    fetch_soundnet float_of_string w (default VNone (md !! "id")) s in
  match found with
  | Ok (Some descriptor) => (Ok (descriptor ∪ md), s1)
  | Ok None =>
      let '(preview, s2) :=
        fetch_preview_url w artist name (default VNone (md !! "duration_ms")) s1 in
      match preview with
      | Ok url =>
          if negb (truthy url) then (Ok (no_preview_result md), s2)
          else
            let '(r, s3) := download_and_analyze w md s2 in
            match r with
            | Ok (Some result) => (Ok result, s3)
            | Ok None => (Ok (failed_download_result md), s3)
            | Raise e => (Raise e, s3)
            end
      | Raise e => (Raise e, s2)
      end
  | Raise e => (Raise e, s1)
  end.
Proof.
  intros Hartist Hname. unfold process_track, dict_getitem.
  rewrite Hartist, Hname. unfold lift, mbind, io_bind.
  destruct (fetch_soundnet _ _ _ _) as [[[descr|]|e] s1]; try done.
  destruct (fetch_preview_url _ _ _ _ _) as [[url|e] s2]; try done.
  destruct (negb (truthy url)); [done|].
  now destruct (download_and_analyze _ _ _) as [[[result|]|e] s3].
Qed.

Lemma process_track_key_error (w : env) (md : dict) (s : io_state) :
  md !! "artist" = None ∨ md !! "name" = None →
  process_track float_of_string w md s = (Raise KeyError, s).
Proof.
  unfold process_track, dict_getitem, lift, mbind, io_bind.
  intros [->| ->]; [done|]. now destruct (md !! "artist").
Qed.

(** The shapes of the result. *)
Lemma process_track_cases (w : env) (md : dict) (s : io_state) :
  is_Some (md !! "artist") → is_Some (md !! "name") →
  ∃ result s', process_track float_of_string w md s = (Ok result, s')
    ∧ ((∃ descr bpm key energy,
          descr = <["bpm" := bpm]> (<["key" := key]> (<["energy" := energy]>
                  (<["source" := VStr "soundnet"]> ∅)))
          ∧ canonical_bpm bpm ∧ result = descr ∪ md)
       ∨ result = no_preview_result md
       ∨ (∃ bpm key energy,
            canonical_bpm bpm ∧ result = analyzed_result md bpm key energy)
       ∨ result = error_result md
       ∨ result = failed_download_result md).
Proof.
  intros [artist Hartist] [name Hname].
  rewrite (process_track_eq w md s artist name) by done.
  pose proof (fetch_soundnet_eq float_of_string w (default VNone (md !! "id")) s)
    as Hsn.
  destruct (fetch_soundnet_returns float_of_string w
              (default VNone (md !! "id")) s) as (found & s1 & Hfound).
  rewrite Hfound in Hsn |- *. cbn [fst] in Hsn.
  destruct found as [descr|].
  { do 2 eexists. split; [reflexivity|]. left.
    destruct (net w (sent s)) as [e|status body]; [done|].
    status_is_200 status.
    destruct body as [data|e]; [|done].
    destruct (soundnet_descriptor float_of_string data) as [[descr'|]|e] eqn:Hd;
      try done.
    injection Hsn as ->.
    apply soundnet_descriptor_some in Hd
      as (d & bpm & energy & -> & _ & Hbpm & _ & ->).
    do 4 eexists. split; [reflexivity|]. split; [|reflexivity].
    eapply normalize_bpm_canonical; eauto. }
  destruct (search_attempts_return w name (default VNone (md !! "duration_ms"))
              0 3 s1) as (url & s2 & delays & Hurl & _).
  unfold fetch_preview_url. rewrite Hurl.
  destruct (negb (truthy url)).
  { do 2 eexists. split; [reflexivity|]. eauto. }
  destruct (download_and_analyze_cases w md s2) as (o & -> & Ho).
  destruct o as [result|].
  2:{ do 2 eexists. split; [reflexivity|]. eauto 10. }
  do 2 eexists. split; [reflexivity|].
  destruct (net w (sent s2)) as [e|status body].
  { injection Ho as ->. eauto 10. }
  destruct (status =? 200)%Z; [|done].
  destruct body as [bytes|e]; [|injection Ho as ->; eauto 10].
  destruct (tmp_write w) as [[]|e]; [|injection Ho as ->; eauto 10].
  destruct (unlink w) as [[]|e]; [|injection Ho as ->; eauto 10].
  cbv zeta in Ho. injection Ho as ->.
  destruct (analyze_audio_file_shape (librosa w)) as (b & k & e & -> & Hcan & _).
  destruct (analysis_lookups b k e) as (-> & _).
  right. right. left. do 3 eexists. split; [exact Hcan|reflexivity].
Qed.
End resolver.


Section resolver_spec.
Variable float_of_string : string → option Q.


(** On metadata with [artist] and [name] the function returns, and the
    result keeps the metadata outside the descriptor fields. *)
Lemma process_track_returns (w : env) (md : dict) (s : io_state) :
  is_Some (md !! "artist") → is_Some (md !! "name") →
  ∃ result s',
    process_track float_of_string w md s = (Ok result, s')
    ∧ (∀ k, k ∉ descriptor_keys → result !! k = md !! k)
    ∧ (∀ k, is_Some (md !! k) → is_Some (result !! k))
    ∧ is_Some (result !! "bpm")
    ∧ (result !! "status" = Some (VStr "no_preview")
       ∨ result !! "status" = Some (VStr "analyzed_audio")
       ∨ result !! "status" = Some (VStr "error")
       ∨ result !! "status" = Some (VStr "failed_download")
       ∨ result !! "source" = Some (VStr "soundnet")).
Proof.
  intros Hartist Hname.
  destruct (process_track_cases float_of_string w md s Hartist Hname)
    as (result & s' & Heq & Hshape).
  exists result, s'. split; [exact Heq|].
  assert (∀ k : string, k ∉ descriptor_keys →
            k ≠ "bpm" ∧ k ≠ "key" ∧ k ≠ "energy" ∧ k ≠ "status" ∧ k ≠ "source")
    as Hkeys.
  { intros k Hk. unfold descriptor_keys in Hk.
    rewrite !not_elem_of_cons in Hk. now destruct Hk as (? & ? & ? & ? & ? & _). }
  destruct Hshape as [(descr & bpm & key & energy & -> & Hcan & ->)
                     |[->|[(bpm & key & energy & Hcan & ->)|[->| ->]]]].
  - repeat split.
    + intros k (? & ? & ? & ? & ?)%Hkeys.
      rewrite lookup_union_r; [done|].
      now rewrite !lookup_insert_ne, lookup_empty by done.
    + intros k Hk. apply lookup_union_is_Some. now right.
    + eexists. apply lookup_union_Some_l, lookup_insert_eq.
    + do 4 right. apply lookup_union_Some_l.
      now rewrite !lookup_insert_ne, lookup_insert_eq by done.
  - unfold no_preview_result. repeat split.
    + intros k (? & ? & ? & ? & ?)%Hkeys. now rewrite !lookup_insert_ne by done.
    + intros k Hk. rewrite !lookup_insert. repeat case_decide; eauto.
    + rewrite lookup_insert_eq. eauto.
    + left. now rewrite lookup_insert_ne, lookup_insert_eq by done.
  - unfold analyzed_result. repeat split.
    + intros k (? & ? & ? & ? & ?)%Hkeys. now rewrite !lookup_insert_ne by done.
    + intros k Hk. rewrite !lookup_insert. repeat case_decide; eauto.
    + rewrite lookup_insert_eq. eauto.
    + right. left. now rewrite !lookup_insert_ne, lookup_insert_eq by done.
  - unfold error_result. repeat split.
    + intros k (? & ? & ? & ? & ?)%Hkeys. now rewrite !lookup_insert_ne by done.
    + intros k Hk. rewrite !lookup_insert. repeat case_decide; eauto.
    + rewrite lookup_insert_eq. eauto.
    + do 2 right. left. now rewrite !lookup_insert_ne, lookup_insert_eq by done.
  - unfold failed_download_result. repeat split.
    + intros k (? & ? & ? & ? & ?)%Hkeys. now rewrite !lookup_insert_ne by done.
    + intros k Hk. rewrite !lookup_insert. repeat case_decide; eauto.
    + rewrite lookup_insert_eq. eauto.
    + do 3 right. left. now rewrite !lookup_insert_ne, lookup_insert_eq by done.
Qed.

(** C4, as the code has it. On metadata that has [artist] and [name],
    [process_track] returns a dictionary and does not raise; the result
    has every key of the metadata, with the metadata's value for every
    key other than [bpm], [key], [energy], [status] and [source]; it has
    a [bpm], and it has a [status] unless it comes from the remote
    lookup, which sets [source]. Without [artist] or [name] the function
    raises [KeyError]. *)
Theorem process_track_preserves (w : env) (md : dict) (s : io_state) :
  (is_Some (md !! "artist") → is_Some (md !! "name") →
   ∃ result s',
     process_track float_of_string w md s = (Ok result, s')
     ∧ (∀ k, k ∉ descriptor_keys → result !! k = md !! k)
     ∧ (∀ k, is_Some (md !! k) → is_Some (result !! k))
     ∧ is_Some (result !! "bpm")
     ∧ (result !! "status" = Some (VStr "no_preview")
        ∨ result !! "status" = Some (VStr "analyzed_audio")
        ∨ result !! "status" = Some (VStr "error")
        ∨ result !! "status" = Some (VStr "failed_download")
        ∨ result !! "source" = Some (VStr "soundnet")))
  ∧ (md !! "artist" = None ∨ md !! "name" = None →
     process_track float_of_string w md s = (Raise KeyError, s)).
Proof.
  split; [apply process_track_returns|apply process_track_key_error].
Qed.
End resolver_spec.


Example process_track_remote :
  (process_track (λ _, None) soundnet_env sample_track io_start).1
  = Ok (<["bpm" := VNum (1400 # 10)]> (<["key" := VStr "8A"]>
       (<["energy" := VNum 50]> (<["source" := VStr "soundnet"]> sample_track)))).
Proof. vm_compute. reflexivity. Qed.

Lemma process_track_preserves_witness :
  ∃ result s',
    process_track (λ _, None) unreachable_env sample_track io_start = (Ok result, s')
    ∧ (∀ k, k ∉ descriptor_keys → result !! k = sample_track !! k)
    ∧ (∀ k, is_Some (sample_track !! k) → is_Some (result !! k))
    ∧ is_Some (result !! "bpm").
Proof.
  assert (is_Some (sample_track !! "artist")) as Hartist by (vm_compute; eauto).
  assert (is_Some (sample_track !! "name")) as Hname by (vm_compute; eauto).
  destruct (proj1 (process_track_preserves (λ _, None) unreachable_env
                     sample_track io_start) Hartist Hname)
    as (result & s' & Hrun & Hother & Hkeys & Hbpm & _).
  exists result, s'. repeat split; assumption.
Defined.

(** C4 as stated fails on a track that already has a [bpm]: the result
    holds [bpm = 0] in place of the track's value. *)
Lemma process_track_overwrites_bpm :
  (process_track (λ _, None) unreachable_env analysed_track io_start).1
  = Ok (no_preview_result analysed_track)
  ∧ analysed_track !! "bpm" = Some (VNum 123)
  ∧ no_preview_result analysed_track !! "bpm" = Some (VNum 0).
Proof. repeat split; vm_compute; reflexivity. Qed.

Section analysis_failure.
Variable float_of_string : string → option Q.

End analysis_failure.



(** ** Batch controller: the event stream *)









Section batch.
Variable float_of_string : string → option Q.
Variable as_completed : list (res dict) → list (res dict).
Variable envs : nat → env.
Variable spotify_items : res (list pyval).

Lemma bounded_process_returns (w : env) (track : dict) (s : io_state) :
  is_Some (track !! "artist") → is_Some (track !! "name") →
  ∃ r, (bounded_process float_of_string w track s).1 = Ok r
       ∧ is_Some (r !! "name").
Proof.
  intros Hartist Hname. unfold bounded_process, sleep, mbind, io_bind.
  destruct (process_track_returns float_of_string w track
              {| sent := sent s; slept := slept s ++ [5 # 100]%Q |}
              Hartist Hname) as (r & s' & -> & _ & Hkeys & _).
  exists r. split; [done|]. now apply Hkeys.
Qed.

End batch.



(** A playlist fetched from a link is announced by two [progress]
    events. *)
Example event_generator_link :
  map (λ ev, match ev with
             | Progress _ => "progress" | Update _ _ _ => "update"
             | Done _ => "done" | Error _ => "error"
             end)
      (event_generator (λ _, None) id (λ _, unreachable_env)
         (Ok [playlist_item "Aerodynamic"; VDict ∅; playlist_item "Voyager"])
         linked_playlist)
  = ["progress"; "progress"; "update"; "update"; "done"].
Proof. vm_compute. reflexivity. Qed.

(** A track without [artist] makes its task raise; the stream ends with an
    [error] event and no [done]. *)
Example event_generator_bad_track :
  map (λ ev, match ev with
             | Progress _ => "progress" | Update _ _ _ => "update"
             | Done _ => "done" | Error _ => "error"
             end)
      (event_generator (λ _, None) id (λ _, unreachable_env) (Ok [])
         {| playlist_link := None; playlist_id := None; access_token := "token";
            tracks := Some [track_named "Aerodynamic"; <["name" := VStr "x"]> ∅] |})
  = ["progress"; "update"; "error"].
Proof. vm_compute. reflexivity. Qed.

(** ** Batch controller: the permit pool *)

Module PoolFacts.
Import Pool.

Lemma sum_insert (f : nat → nat) (l : list nat) (i x y : nat) :
  l !! i = Some x →
  sum_list (map f (<[i := y]> l)) + f x = sum_list (map f l) + f y.
Proof.
  revert i. induction l as [|a l IH]; intros [|i] Hi; try done.
  - injection Hi as ->. simpl. lia.
  - simpl in *. specialize (IH i Hi). lia.
Qed.

Lemma step_invariant (i : nat) (s s' : state) :
  step i s = Some s' →
  in_flight s + value s = 4 → in_flight s' + value s' = 4.
Proof.
  unfold step, in_flight. intros Hstep Hinv.
  destruct (steps_done s !! i) as [pc|] eqn:Hpc; [|done].
  cbn [mbind option_bind] in Hstep.
  pose proof (sum_insert (λ pc, if holds pc then 1 else 0) _ i pc (S pc) Hpc)
    as Hsum. cbv beta in Hsum.
  destruct pc as [|[|[|[|pc]]]]; cbn in Hstep, Hsum; [| | | |done].
  - destruct (decide (0 < value s)); [|done].
    injection Hstep as <-. cbn [value steps_done]. lia.
  - injection Hstep as <-. cbn [value steps_done]. lia.
  - injection Hstep as <-. cbn [value steps_done]. lia.
  - injection Hstep as <-. cbn [value steps_done]. lia.
Qed.

Lemma init_invariant (n : nat) : in_flight (init n) + value (init n) = 4.
Proof.
  unfold in_flight, init. cbn [value steps_done].
  induction n as [|n IH]; [done|]. simpl in *. lia.
Qed.

Lemma run_invariant (schedule : list nat) (s s' : state) :
  run schedule s = Some s' →
  in_flight s + value s = 4 → in_flight s' + value s' = 4.
Proof.
  revert s. induction schedule as [|i rest IH]; intros s; simpl.
  - now intros [= <-].
  - destruct (step i s) as [s1|] eqn:Hstep; [|done]. simpl.
    intros Hrun Hinv. apply (IH s1 Hrun). eapply step_invariant; eauto.
Qed.

(** A task never gets beyond the four steps of [bounded_process]. *)
Lemma step_bounded (i : nat) (s s' : state) :
  step i s = Some s' →
  Forall (λ pc, pc ≤ 4) (steps_done s) → Forall (λ pc, pc ≤ 4) (steps_done s').
Proof.
  unfold step. intros Hstep Hall.
  destruct (steps_done s !! i) as [pc|] eqn:Hpc; [|done].
  cbn [mbind option_bind] in Hstep.
  destruct (bounded_process_steps !! pc) as [ins|] eqn:Hins; [|done].
  assert (S pc ≤ 4) as Hle.
  { apply lookup_lt_Some in Hins. simpl in Hins. lia. }
  cbn [mbind option_bind] in Hstep.
  destruct ins; [destruct (decide _); [|done]|..];
    injection Hstep as <-; cbn [steps_done];
    now apply Forall_insert.
Qed.



(** With four permits out, a fifth task waits. *)
Example fifth_task_waits : run [0; 1; 2; 3; 4] (init 6) = None.
Proof. reflexivity. Qed.

Example permit_returns :
  option_map in_flight (run [0; 1; 2; 3; 0; 0; 0; 4] (init 6)) = Some 4.
Proof. reflexivity. Qed.
End PoolFacts.

(** * Further properties of the code *)

(** ** [clean_str] *)

Lemma clean_str_length (s : string) : String.length (clean_str s) ≤ String.length s.
Proof.
  induction s as [|c s IH]; simpl; [done|].
  destruct (keep_char c); simpl; lia.
Qed.

Lemma clean_str_kept (s : string) :
  Forall (λ c, keep_char c = true) (list_ascii_of_string s) → clean_str s = s.
Proof.
  induction s as [|c s IH]; simpl; [done|].
  intros [Hc Hs]%Forall_cons. rewrite Hc. f_equal. now apply IH.
Qed.

Lemma clean_str_chars (s : string) :
  Forall (λ c, keep_char c = true) (list_ascii_of_string (clean_str s)).
Proof.
  induction s as [|c s IH]; simpl; [constructor|].
  destruct (keep_char c) eqn:E; [|done]. simpl. now constructor.
Qed.

(** The cleaned name has letters, digits and spaces only; cleaning it again
    changes nothing; and a name is left as it is exactly when it has no
    other character, which is when [fetch_preview_url] makes no second
    search. *)
Theorem clean_str_spec (s : string) :
  Forall (λ c, keep_char c = true) (list_ascii_of_string (clean_str s))
  ∧ clean_str (clean_str s) = clean_str s
  ∧ (clean_str s = s ↔ Forall (λ c, keep_char c = true) (list_ascii_of_string s))
  ∧ String.length (clean_str s) ≤ String.length s.
Proof.
  split; [apply clean_str_chars|].
  split; [apply clean_str_kept, clean_str_chars|].
  split; [|apply clean_str_length].
  split; [|apply clean_str_kept].
  intros Heq. rewrite <- Heq. apply clean_str_chars.
Qed.

(** ** [normalize_bpm]: the octave *)

Lemma round_half_even_comp (p q : Q) : (p == q)%Q → round_half_even p = round_half_even q.
Proof.
  intros Heq. unfold round_half_even.
  rewrite (Qfloor_comp _ _ Heq).
  assert ((p - inject_Z (Qfloor q) ?= 1 # 2)%Q = (q - inject_Z (Qfloor q) ?= 1 # 2)%Q)
    as -> by now rewrite Heq.
  reflexivity.
Qed.

Lemma py_round1_comp (p q : Q) : (p == q)%Q → py_round1 p = py_round1 q.
Proof.
  intros Heq. unfold py_round1. f_equal. apply round_half_even_comp.
  now rewrite Heq.
Qed.





(** ** [chroma_to_key]: which key is returned *)

Lemma corr_gt_irrefl (c : corr) : corr_gt c c = false.
Proof. destruct c as [|q]; [done|]. simpl. apply Qltb_false. lra. Qed.

Lemma corr_gt_trans (a b c : corr) :
  corr_gt a b = true → corr_gt b c = true → corr_gt a c = true.
Proof.
  destruct a as [|x], b as [|y], c as [|z]; simpl; try done.
  rewrite !Qltb_spec. lra.
Qed.

(** What does not beat a maximum does not beat a larger one. *)
Lemma corr_gt_false_above (p m m' : corr) :
  corr_gt p m = false → corr_gt m' m = true → corr_gt p m' = false.
Proof.
  destruct p as [|x], m as [|y], m' as [|z]; simpl; try done.
  rewrite Qltb_spec, !Qltb_false. lra.
Qed.

(** What does not beat a maximum is NaN or is beaten by what does. *)
Lemma corr_gt_false_below (p m m' : corr) :
  corr_gt p m = false → corr_gt m' m = true → p = NaN ∨ corr_gt m' p = true.
Proof.
  destruct p as [|x], m as [|y], m' as [|z]; simpl; try done; [by left|].
  rewrite Qltb_false, !Qltb_spec. right. lra.
Qed.

Section scan_order.
Variables (t : list Q) (cam : gmap nat string) (x : list Q).
Hypothesis Hlen : length x = length t.

Let p (root : nat) : corr := pearson x (np_roll t root).

(** A scan either leaves the state alone, when no root beats the maximum
    it starts from, or ends on the first of the roots whose correlation
    is the largest: the roots before it correlate less (or not at all),
    the roots after it do not correlate more. *)
Lemma scan_argmax (roots : list nat) (st st' : corr * string) :
  for_in roots (key_scan t cam x) st = Ok st' →
  (st' = st ∧ Forall (λ r, corr_gt (p r) st.1 = false) roots)
  ∨ (∃ before root after k,
       roots = before ++ root :: after
       ∧ cam !! root = Some k
       ∧ st' = (p root, k)
       ∧ corr_gt (p root) st.1 = true
       ∧ Forall (λ r, p r = NaN ∨ corr_gt (p root) (p r) = true) before
       ∧ Forall (λ r, corr_gt (p r) (p root) = false) after).
Proof using Hlen.
  revert st. induction roots as [|r roots IH]; intros st; cbn [for_in].
  { intros [= <-]. left. split; [done|constructor]. }
  rewrite key_scan_eq by done. cbv zeta. fold (p r).
  destruct (corr_gt (p r) st.1) eqn:Hgt.
  - unfold getitem. destruct (cam !! r) as [k|] eqn:Hk; [|done].
    cbn [mbind res_bind]. intros Hrest.
    destruct (IH _ Hrest) as [[-> Hall]|(before & root & after & k' & -> & Hk' & -> & Hbeat & Hbefore & Hafter)].
    + right. exists [], r, roots, k. repeat split; done.
    + right. exists (r :: before), root, after, k'. cbn [fst] in Hbeat.
      repeat split; try done.
      * eapply corr_gt_trans; eauto.
      * constructor; [now right|done].
  - cbn [mbind res_bind]. intros Hrest.
    destruct (IH _ Hrest) as [[-> Hall]|(before & root & after & k' & -> & Hk' & -> & Hbeat & Hbefore & Hafter)].
    + left. split; [done|]. now constructor.
    + right. exists (r :: before), root, after, k'. repeat split; try done.
      constructor; [|done]. eapply corr_gt_false_below; eauto.
Qed.

(** After a scan no root beats the maximum. *)
Lemma scan_dominates (roots : list nat) (st st' : corr * string) :
  for_in roots (key_scan t cam x) st = Ok st' →
  Forall (λ r, corr_gt (p r) st'.1 = false) roots
  ∧ (st'.1 = st.1 ∨ corr_gt st'.1 st.1 = true).
Proof using Hlen.
  intros Hscan.
  destruct (scan_argmax _ _ _ Hscan)
    as [[-> Hall]|(before & root & after & k & -> & Hk & -> & Hbeat & Hbefore & Hafter)].
  - split; [done|now left].
  - cbn [fst]. split; [|now right].
    apply Forall_app. split; [|constructor; [apply corr_gt_irrefl|done]].
    eapply Forall_impl; [exact Hbefore|]. cbv beta.
    intros r [->|Hr]; [done|].
    destruct (p r) as [|a], (p root) as [|b]; simpl in *; try done.
    apply Qltb_spec in Hr. apply Qltb_false. lra.
Qed.

(** A scan in which no root beats the maximum changes nothing. *)
Lemma scan_no_gain (roots : list nat) (st : corr * string) :
  Forall (λ r, corr_gt (p r) st.1 = false) roots →
  for_in roots (key_scan t cam x) st = Ok st.
Proof using Hlen.
  induction 1 as [|r roots Hr _ IH]; cbn [for_in]; [done|].
  rewrite key_scan_eq by done. cbv zeta. fold (p r). now rewrite Hr.
Qed.
End scan_order.

(** A profile of another length cannot be correlated with a template. *)
Lemma scan_wrong_length (t : list Q) (cam : gmap nat string) (x : list Q)
    (root : nat) (roots : list nat) (st : corr * string) :
  length x ≠ length t →
  for_in (root :: roots) (key_scan t cam x) st = Raise ValueError.
Proof.
  intros Hlen. cbn [for_in]. unfold key_scan, corrcoef.
  rewrite np_roll_length.
  now assert ((length x =? length t) = false) as -> by now apply Nat.eqb_neq.
Qed.

(** Every rotation of the minor template is a rotation of the major one:
    the relative major, three semitones up. *)
Lemma minor_is_relative_major :
  Forall (λ root, np_roll minor_template root
                  = np_roll major_template ((root + 3) `mod` 12)) (seq 0 12).
Proof. repeat constructor. Qed.

(** The outcome of the function is the outcome of its first loop. *)
Lemma chroma_to_key_major_scan (chroma : list (list Q)) (k : string) :
  chroma_to_key chroma = Ok k →
  length chroma = 12
  ∧ ∃ m, for_in (seq 0 12)
           (key_scan major_template major_camelot (np_sum_axis1 chroma))
           (Corr (-1), "Unknown") = Ok (m, k).
Proof.
  rewrite chroma_to_key_eq. set (x := np_sum_axis1 chroma).
  destruct (decide (length x = 12)) as [Hlen|Hlen].
  2:{ change (seq 0 12) with (0 :: seq 1 11).
      now rewrite scan_wrong_length. }
  intros Hrun. split; [unfold x, np_sum_axis1 in Hlen; now rewrite length_map in Hlen|].
  destruct (for_in _ _ (Corr (-1), "Unknown")) as [[m k1]|e] eqn:H1; [|done].
  cbn [mbind res_bind] in Hrun.
  destruct (scan_dominates major_template major_camelot x Hlen _ _ _ H1) as [Hdom _].
  rewrite (scan_no_gain minor_template minor_camelot x Hlen) in Hrun.
  - cbn [mbind res_bind] in Hrun. injection Hrun as <-. eauto.
  - cbn [fst] in *. pose proof minor_is_relative_major as Hrel.
    rewrite Forall_forall in Hdom, Hrel |- *. intros r Hr.
    rewrite (Hrel r Hr). apply Hdom.
    apply elem_of_seq. pose proof (Nat.mod_upper_bound (r + 3) 12). lia.
Qed.

(** The answer of the estimator is a label of the major table or
    ["Unknown"]. *)
Lemma chroma_to_key_major_label (chroma : list (list Q)) (k : string) :
  chroma_to_key chroma = Ok k → k ∈ major_labels ∨ k = "Unknown".
Proof.
  intros Hrun.
  destruct (chroma_to_key_major_scan _ _ Hrun) as (Hrows & m & Hscan).
  assert (length (np_sum_axis1 chroma) = length major_template) as Hlen.
  { unfold np_sum_axis1. now rewrite length_map. }
  destruct (scan_argmax major_template major_camelot _ Hlen _ _ _ Hscan)
    as [[[= _ ->] _]|(before & root & after & k' & _ & Hk' & [= _ ->] & _)].
  - now right.
  - left. apply elem_of_list_to_map_2 in Hk'.
    repeat (apply elem_of_cons in Hk' as [[= _ ->]|Hk'];
            [unfold major_labels; rewrite !elem_of_cons; tauto|]).
    now apply elem_of_nil in Hk'.
Qed.

(** [chroma_to_key] never returns a minor key: its answer is a label of
    the major table ([1B] to [12B]) or ["Unknown"], because the minor
    templates are rotations of the major one and a correlation that is
    not larger does not replace the key. *)
Theorem chroma_to_key_never_minor (chroma : list (list Q)) (k : string) :
  chroma_to_key chroma = Ok k →
  (k ∈ major_labels ∨ k = "Unknown") ∧ k ∉ minor_labels.
Proof.
  intros Hrun.
  pose proof (chroma_to_key_major_label _ _ Hrun) as Hk.
  split; [exact Hk|].
  unfold minor_labels, major_labels in *. rewrite !not_elem_of_cons.
  rewrite !elem_of_cons, elem_of_nil in Hk.
  repeat split; try apply not_elem_of_nil;
    intros ->; repeat (destruct Hk as [Hk|Hk]; try discriminate Hk); done.
Qed.

Lemma chroma_to_key_never_minor_witness :
  let chroma := one_frame [3; 0; 1; 2; 0; 1; 0; 2; 1; 0; 1; 0]%Q in
  chroma_to_key chroma = Ok "5B"
  ∧ ("5B" ∈ major_labels ∨ "5B" = "Unknown") ∧ "5B" ∉ minor_labels.
Proof.
  intros chroma.
  assert (chroma_to_key chroma = Ok "5B") as Hrun by (vm_compute; reflexivity).
  split; [exact Hrun|]. exact (chroma_to_key_never_minor chroma "5B" Hrun).
Defined.





(** ** [fetch_soundnet]: requests and hits *)

Section soundnet_more.
Variable float_of_string : string → option Q.

Lemma fetch_soundnet_state (w : env) (id : pyval) (s : io_state) :
  (fetch_soundnet float_of_string w id s).2
  = {| sent := S (sent s); slept := slept s |}.
Proof.
  unfold fetch_soundnet, try_io, session_get, mbind, io_bind, lift.
  destruct (net w (sent s)) as [e|status body]; [done|].
  destruct (status =? 200)%Z; [|done].
  destruct body as [data|e]; [|done].
  now destruct (soundnet_descriptor float_of_string data) as [r|e].
Qed.

Lemma soundnet_descriptor_hit (d : dict) (tempo bpm : pyval) (energy : Q) :
  d !! "tempo" = Some tempo →
  normalize_bpm tempo = Ok bpm →
  py_float float_of_string (default (VNum 50) (d !! "energy")) = Ok energy →
  soundnet_descriptor float_of_string (VDict d)
  = Ok (Some (<["bpm" := bpm]>
             (<["key" := if truthy (default VNone (d !! "camelot"))
                         then default VNone (d !! "camelot") else VStr "?"]>
             (<["energy" := VNum energy]>
             (<["source" := VStr "soundnet"]> ∅))))).
Proof.
  intros Htempo Hbpm Henergy. unfold soundnet_descriptor. cbn [py_in].
  rewrite Htempo, bool_decide_eq_true_2 by eauto.
  cbn [mbind res_bind py_get]. rewrite Htempo. cbn [default].
  change (id tempo) with tempo. rewrite Hbpm. cbn [mbind res_bind]. now rewrite Henergy.
Qed.

(** The lookup sends exactly one request and never sleeps. It returns a
    descriptor exactly when the answer is a 200 whose document has a
    [tempo] that [normalize_bpm] accepts and an [energy] (50 when missing)
    that [float] accepts: a tempo given as text, or an energy that is
    null or not a number, makes the whole lookup return [None]. *)
Theorem fetch_soundnet_hits (w : env) (id : pyval) (s : io_state) (descr : dict) :
  (fetch_soundnet float_of_string w id s).2
  = {| sent := S (sent s); slept := slept s |}
  ∧ ((fetch_soundnet float_of_string w id s).1 = Ok (Some descr) ↔
     ∃ (d : dict) tempo bpm energy,
       net w (sent s) = Response 200 (Ok (VDict d))
       ∧ d !! "tempo" = Some tempo
       ∧ normalize_bpm tempo = Ok bpm
       ∧ py_float float_of_string (default (VNum 50) (d !! "energy")) = Ok energy
       ∧ descr = <["bpm" := bpm]>
                 (<["key" := if truthy (default VNone (d !! "camelot"))
                             then default VNone (d !! "camelot") else VStr "?"]>
                 (<["energy" := VNum energy]>
                 (<["source" := VStr "soundnet"]> ∅)))).
Proof.
  split; [apply fetch_soundnet_state|]. rewrite fetch_soundnet_eq. split.
  - intros Hr. destruct (net w (sent s)) as [e|status body]; [done|].
    status_is_200 status. destruct body as [data|e]; [|done].
    destruct (soundnet_descriptor float_of_string data) as [[descr'|]|e] eqn:Hd;
      try done.
    injection Hr as ->.
    apply soundnet_descriptor_some in Hd
      as (d & bpm & energy & -> & [tempo Htempo] & Hbpm & Henergy & ->).
    rewrite Htempo in Hbpm. exists d, tempo, bpm, energy. done.
  - intros (d & tempo & bpm & energy & -> & Htempo & Hbpm & Henergy & ->).
    now rewrite (soundnet_descriptor_hit d tempo bpm energy).
Qed.
End soundnet_more.

(** A document whose energy is null gives no descriptor, tempo or not. *)
Example fetch_soundnet_null_energy :
  (fetch_soundnet (λ _, None)
     (env_of (λ _, Response 200 (Ok (VDict (<["tempo" := VNum 120]>
                                            (<["energy" := VNone]> ∅))))) no_audio)
     VNone io_start).1 = Ok None.
Proof. vm_compute. reflexivity. Qed.

(** ** [fetch_preview_url]: refusals, other statuses, the second search *)

(** A status other than 200, 403 and 429 ends the search at once: [None]
    after one request, without a pause and without another attempt. *)
Theorem fetch_preview_url_other_status (w : env) (artist name dur : pyval)
    (s : io_state) (status : Z) (body : res pyval) :
  net w (sent s) = Response status body →
  status ∉ [200; 403; 429]%Z →
  fetch_preview_url w artist name dur s
  = (Ok VNone, {| sent := S (sent s); slept := slept s |}).
Proof.
  intros Hnet Hstatus. rewrite !not_elem_of_cons in Hstatus.
  destruct Hstatus as (H200 & H403 & H429 & _).
  unfold fetch_preview_url. cbn [seq search_attempts].
  unfold search_attempt, try_io, session_get, mbind, io_bind.
  rewrite Hnet.
  rewrite bool_decide_eq_false_2
    by (rewrite !elem_of_cons, elem_of_nil; intros [?|[?|[]]]; done).
  now assert ((status =? 200)%Z = false) as -> by now apply Z.eqb_neq.
Qed.

Lemma fetch_preview_url_other_status_witness :
  fetch_preview_url (env_of (λ _, Response 503 (Raise JSONDecodeError)) no_audio)
                    (VStr "artist") (VStr "title") (VNum 200000) io_start
  = (Ok VNone, {| sent := 1; slept := [] |}).
Proof.
  apply (fetch_preview_url_other_status _ _ _ _ io_start 503 (Raise JSONDecodeError)).
  - reflexivity.
  - rewrite !not_elem_of_cons. repeat split; try discriminate. apply not_elem_of_nil.
Defined.

Lemma fetch_preview_url_first_return (w : env) (artist name dur v : pyval)
    (s s' : io_state) :
  search_attempt w name dur 0 s = (Ok (Return v), s') →
  fetch_preview_url w artist name dur s = (Ok v, s').
Proof.
  intros H. unfold fetch_preview_url. cbn [seq search_attempts].
  unfold mbind, io_bind. now rewrite H.
Qed.

(** An attempt whose request is answered by a document: what follows the
    fallback search. *)
Lemma search_attempt_after_search (w : env) (name dur data data' : pyval)
    (attempt : nat) (s s2 : io_state) :
  net w (sent s) = Response 200 (Ok data) →
  cleaned_search w name data {| sent := S (sent s); slept := slept s |}
  = (Ok data', s2) →
  search_attempt w name dur attempt s =
  match py_getitem data' "resultCount" with
  | Ok count =>
      if py_eq0 count then (Ok (Return VNone), s2)
      else match select_preview data' dur with
           | Ok url => (Ok (Return url), s2)
           | Raise _ => (Ok Continue, {| sent := sent s2; slept := slept s2 ++ [1%Q] |})
           end
  | Raise _ => (Ok Continue, {| sent := sent s2; slept := slept s2 ++ [1%Q] |})
  end.
Proof.
  intros Hnet Hsearch.
  unfold search_attempt, try_io, session_get, mbind, io_bind.
  rewrite Hnet.
  rewrite bool_decide_eq_false_2
    by (rewrite !elem_of_cons, elem_of_nil; intros [?|[?|[]]]; done).
  cbn [Z.eqb Pos.eqb negb]. unfold lift at 1. rewrite Hsearch. unfold lift.
  destruct (py_getitem data' "resultCount") as [count|e]; [|done].
  destruct (py_eq0 count); [done|].
  now destruct (select_preview data' dur).
Qed.

Lemma cleaned_search_clean (w : env) (title : string) (data : dict)
    (count : pyval) (s : io_state) :
  data !! "resultCount" = Some count → py_eq0 count = true →
  clean_str title = title →
  cleaned_search w (VStr title) (VDict data) s = (Ok (VDict data), s).
Proof.
  intros Hcount Hzero Hclean. unfold cleaned_search, lift, mbind, io_bind.
  cbn [py_getitem]. rewrite Hcount, Hzero, Hclean, String.eqb_refl. done.
Qed.

Lemma cleaned_search_again (w : env) (title : string) (data : dict)
    (count : pyval) (s : io_state) :
  data !! "resultCount" = Some count → py_eq0 count = true →
  clean_str title ≠ title →
  cleaned_search w (VStr title) (VDict data) s =
  (match net w (sent s) with
   | ConnectFail e => Raise e
   | Response status body => if (status =? 200)%Z then body else Ok (VDict data)
   end, {| sent := S (sent s); slept := slept s |}).
Proof.
  intros Hcount Hzero Hdirty. unfold cleaned_search, lift, mbind, io_bind.
  cbn [py_getitem]. rewrite Hcount, Hzero.
  assert (String.eqb (clean_str title) title = false) as ->
    by now apply String.eqb_neq.
  cbn [negb]. unfold session_get.
  destruct (net w (sent s)) as [e|status body]; [done|].
  now destruct (status =? 200)%Z.
Qed.

(** When the first search finds nothing: a title that cleaning does not
    change gives [None] after that one request; any other title is
    searched once more in its cleaned form, and the outcome is decided by
    that second answer alone ([None] when it is not a 200 or is empty
    too). No pause is made. *)
Theorem fetch_preview_url_second_search (w : env) (artist dur : pyval)
    (title : string) (s : io_state) (data : dict) (count : pyval) :
  net w (sent s) = Response 200 (Ok (VDict data)) →
  data !! "resultCount" = Some count → py_eq0 count = true →
  let once := {| sent := S (sent s); slept := slept s |} in
  let twice := {| sent := S (S (sent s)); slept := slept s |} in
  let found := fetch_preview_url w artist (VStr title) dur s in
  (clean_str title = title → found = (Ok VNone, once))
  ∧ (clean_str title ≠ title →
     (∀ status body, net w (S (sent s)) = Response status body →
        status ≠ 200%Z → found = (Ok VNone, twice))
     ∧ (∀ (data2 : dict) count2, net w (S (sent s)) = Response 200 (Ok (VDict data2)) →
          data2 !! "resultCount" = Some count2 → py_eq0 count2 = true →
          found = (Ok VNone, twice))
     ∧ (∀ (data2 : dict) count2 url,
          net w (S (sent s)) = Response 200 (Ok (VDict data2)) →
          data2 !! "resultCount" = Some count2 → py_eq0 count2 = false →
          select_preview (VDict data2) dur = Ok url →
          found = (Ok url, twice))).
Proof.
  intros Hnet Hcount Hzero once twice found. subst found. split.
  - intros Hclean. apply fetch_preview_url_first_return.
    rewrite (search_attempt_after_search w _ dur _ (VDict data) 0 s once Hnet)
      by now apply (cleaned_search_clean w title data count).
    cbn [py_getitem]. now rewrite Hcount, Hzero.
  - intros Hdirty.
    pose proof (cleaned_search_again w title data count once Hcount Hzero Hdirty)
      as Hagain. cbn [sent slept once] in Hagain.
    split; [|split].
    + intros status body Hnet2 Hne. rewrite Hnet2 in Hagain.
      assert ((status =? 200)%Z = false) as E by now apply Z.eqb_neq.
      rewrite E in Hagain. apply fetch_preview_url_first_return.
      rewrite (search_attempt_after_search w _ dur _ _ 0 s twice Hnet Hagain).
      cbn [py_getitem]. now rewrite Hcount, Hzero.
    + intros data2 count2 Hnet2 Hcount2 Hzero2. rewrite Hnet2 in Hagain.
      cbn [Z.eqb Pos.eqb] in Hagain. apply fetch_preview_url_first_return.
      rewrite (search_attempt_after_search w _ dur _ _ 0 s twice Hnet Hagain).
      cbn [py_getitem]. now rewrite Hcount2, Hzero2.
    + intros data2 count2 url Hnet2 Hcount2 Hsome Hsel. rewrite Hnet2 in Hagain.
      cbn [Z.eqb Pos.eqb] in Hagain. apply fetch_preview_url_first_return.
      rewrite (search_attempt_after_search w _ dur _ _ 0 s twice Hnet Hagain).
      cbn [py_getitem]. now rewrite Hcount2, Hsome, Hsel.
Qed.

Lemma fetch_preview_url_second_search_witness :
  fetch_preview_url second_search_env (VStr "artist") (VStr "Don't Stop") (VNum 200000)
                    io_start
  = (Ok (VStr "https://preview/2.m4a"), {| sent := 2; slept := [] |}).
Proof.
  refine (proj2 (proj2 (proj2 (fetch_preview_url_second_search second_search_env
            (VStr "artist") (VNum 200000) "Don't Stop" io_start _ (VNum 0)
            eq_refl _ _) _)) _ (VNum 1) _ eq_refl _ _ _).
  - reflexivity.
  - reflexivity.
  - discriminate.
  - reflexivity.
  - reflexivity.
  - vm_compute. reflexivity.
Defined.

(** ** Audio analysis: [analyze_audio_file] *)





(** ** Track resolution: [process_track] *)

Section resolver_more.
Variable float_of_string : string → option Q.

Lemma fetch_soundnet_run (w : env) (id : pyval) (s : io_state) :
  ∃ found, fetch_soundnet float_of_string w id s
           = (Ok found, {| sent := S (sent s); slept := slept s |}).
Proof.
  destruct (fetch_soundnet_returns float_of_string w id s) as (r & s' & Hrun).
  pose proof (fetch_soundnet_state float_of_string w id s) as Hstate.
  rewrite Hrun in Hstate. cbn [snd] in Hstate. subst s'. eauto.
Qed.

Lemma search_attempts_sent (w : env) (name dur : pyval) (attempts : list nat)
    (s : io_state) :
  sent s ≤ sent (search_attempts w name dur attempts s).2.
Proof.
  revert s. induction attempts as [|attempt rest IH]; intros s; [done|].
  cbn [search_attempts]. unfold mbind, io_bind.
  destruct (search_attempt_returns w name dur attempt s) as (c & s1 & -> & Hs & _).
  destruct c as [|v]; [|cbn; lia].
  specialize (IH s1). lia.
Qed.

(** One track costs at least one and at most eight requests (the remote
    lookup, at most two searches in each of the three attempts, the
    download) and at most three pauses, the [i]-th of 1 or [2 ** i]
    seconds; after three pauses the track is reported without preview. *)
Theorem process_track_budget (w : env) (md : dict) (s : io_state) :
  is_Some (md !! "artist") → is_Some (md !! "name") →
  ∃ result s' delays,
    process_track float_of_string w md s = (Ok result, s')
    ∧ sent s < sent s' ≤ sent s + 8
    ∧ slept s' = slept s ++ delays
    ∧ length delays ≤ 3
    ∧ (∀ i d, delays !! i = Some d → d = 1%Q ∨ d = inject_Z (2 ^ Z.of_nat i))
    ∧ (length delays = 3 → result = no_preview_result md).
Proof.
  intros [artist Hartist] [name Hname].
  rewrite (process_track_eq float_of_string w md s artist name) by done.
  destruct (fetch_soundnet_run w (default VNone (md !! "id")) s) as [found ->].
  destruct found as [descr|].
  - exists (descr ∪ md), {| sent := S (sent s); slept := slept s |}, [].
    cbn [sent slept length]. rewrite app_nil_r.
    repeat split; try done; try lia.
  - set (s1 := {| sent := S (sent s); slept := slept s |}).
    unfold fetch_preview_url.
    pose proof (search_attempts_sent w name (default VNone (md !! "duration_ms"))
                  (seq 0 3) s1) as Hmono.
    destruct (search_attempts_return w name (default VNone (md !! "duration_ms"))
                0 3 s1) as (v & s2 & delays & Hrun & Hsent & Hslept & Hlen & Hnone & Hd).
    rewrite Hrun in Hmono |- *.
    cbn [sent slept s1 snd] in Hsent, Hslept, Hmono.
    destruct (truthy v) eqn:Hv; cbn [negb].
    + destruct (download_and_analyze_cases w md s2) as (o & -> & _).
      exists (match o with Some r => r | None => failed_download_result md end),
             {| sent := S (sent s2); slept := slept s2 |}, delays.
      cbn [sent slept]. split; [now destruct o|].
      repeat split; try done; try lia.
      intros H3. rewrite (Hnone H3) in Hv. done.
    + exists (no_preview_result md), s2, delays.
      repeat split; try done; lia.
Qed.

(** A usable answer of the remote lookup ends the resolution after one
    request and no pause. Its four fields replace the track's own; every
    other field is the track's, so that a [status] left by an earlier
    analysis stays in the result. *)
Theorem process_track_remote_hit (w : env) (md d : dict) (s : io_state)
    (tempo bpm : pyval) (energy : Q) :
  is_Some (md !! "artist") → is_Some (md !! "name") →
  net w (sent s) = Response 200 (Ok (VDict d)) →
  d !! "tempo" = Some tempo →
  normalize_bpm tempo = Ok bpm →
  py_float float_of_string (default (VNum 50) (d !! "energy")) = Ok energy →
  ∃ result,
    process_track float_of_string w md s
    = (Ok result, {| sent := S (sent s); slept := slept s |})
    ∧ result !! "bpm" = Some bpm
    ∧ result !! "key" = Some (if truthy (default VNone (d !! "camelot"))
                              then default VNone (d !! "camelot") else VStr "?")
    ∧ result !! "energy" = Some (VNum energy)
    ∧ result !! "source" = Some (VStr "soundnet")
    ∧ (∀ k, k ∉ ["bpm"; "key"; "energy"; "source"] → result !! k = md !! k).
Proof.
  intros [artist Hartist] [name Hname] Hnet Htempo Hbpm Henergy.
  rewrite (process_track_eq float_of_string w md s artist name) by done.
  destruct (fetch_soundnet_run w (default VNone (md !! "id")) s) as [found Hrun].
  pose proof (fetch_soundnet_eq float_of_string w (default VNone (md !! "id")) s) as Heq.
  rewrite Hrun, Hnet in Heq. cbn [fst] in Heq.
  rewrite (soundnet_descriptor_hit float_of_string d tempo bpm energy) in Heq by done.
  injection Heq as ->. rewrite Hrun.
  eexists. split; [reflexivity|].
  repeat split.
  1-4: apply lookup_union_Some_l; rewrite ?lookup_insert_ne by done;
    apply lookup_insert_eq.
  intros k Hk. rewrite !not_elem_of_cons in Hk. destruct Hk as (? & ? & ? & ? & _).
  apply lookup_union_r. now rewrite !lookup_insert_ne, lookup_empty by done.
Qed.

(** Once the remote lookup has missed: a search without a preview ends
    the resolution with the status [no_preview] and no further request;
    with a preview, one download request follows, and a status other
    than 200 gives [failed_download], while a download that is read,
    stored and removed gives the fields of the analysis and the status
    [analyzed_audio]. *)
Theorem process_track_download_outcomes (w : env) (md : dict)
    (s s1 s2 : io_state) (artist name url : pyval) :
  md !! "artist" = Some artist → md !! "name" = Some name →
  fetch_soundnet float_of_string w (default VNone (md !! "id")) s = (Ok None, s1) →
  fetch_preview_url w artist name (default VNone (md !! "duration_ms")) s1
  = (Ok url, s2) →
  let after := {| sent := S (sent s2); slept := slept s2 |} in
  let run := process_track float_of_string w md s in
  (truthy url = false → run = (Ok (no_preview_result md), s2))
  ∧ (truthy url = true →
     (∀ status body, net w (sent s2) = Response status body → status ≠ 200%Z →
        run = (Ok (failed_download_result md), after))
     ∧ (∀ bytes, net w (sent s2) = Response 200 (Ok bytes) →
          tmp_write w = Ok () → unlink w = Ok () →
          ∃ bpm key energy,
            analyze_audio_file (librosa w)
            = <["bpm" := bpm]> (<["key" := key]> (<["energy" := energy]> ∅))
            ∧ run = (Ok (analyzed_result md bpm key energy), after))).
Proof.
  intros Hartist Hname Hsn Hpv after run. subst run.
  rewrite (process_track_eq float_of_string w md s artist name) by done.
  rewrite Hsn, Hpv. split; intros Hurl; rewrite Hurl; cbn [negb]; [done|].
  destruct (download_and_analyze_cases w md s2) as (o & -> & Ho). fold after.
  split.
  - intros status body Hnet Hstatus. rewrite Hnet in Ho.
    assert ((status =? 200)%Z = false) as E by now apply Z.eqb_neq.
    rewrite E in Ho. now subst o.
  - intros bytes Hnet Htmp Hunlink. rewrite Hnet, Htmp, Hunlink in Ho.
    cbn [Z.eqb Pos.eqb] in Ho. cbv zeta in Ho. subst o.
    destruct (analyze_audio_file_shape (librosa w)) as (b & k & e & Hshape & _).
    exists b, k, e. split; [exact Hshape|]. rewrite Hshape.
    now destruct (analysis_lookups b k e) as (-> & -> & ->).
Qed.

Lemma union_absorb (descr md : dict) : descr ∪ (descr ∪ md) = descr ∪ md.
Proof. now rewrite (assoc_L (∪)), (idemp_L (∪)). Qed.

Ltac dict_eq :=
  apply map_eq; intros ?; rewrite ?lookup_insert; repeat case_decide; done.

Lemma no_preview_again (md : dict) :
  no_preview_result (no_preview_result md) = no_preview_result md.
Proof. unfold no_preview_result. dict_eq. Qed.

Lemma analyzed_again (md : dict) (b k e b' k' e' : pyval) :
  analyzed_result (analyzed_result md b' k' e') b k e = analyzed_result md b k e.
Proof. unfold analyzed_result. dict_eq. Qed.

Lemma error_again (md : dict) : error_result (error_result md) = error_result md.
Proof. unfold error_result. dict_eq. Qed.

Lemma failed_download_again (md : dict) :
  failed_download_result (failed_download_result md) = failed_download_result md.
Proof. unfold failed_download_result. dict_eq. Qed.

(** Analysing a result again, with the outside world answering as
    before, gives the same result and the same effects: the fields that
    a branch sets are set to the same values, and nothing accumulates. *)
Theorem process_track_reanalysis (w : env) (md result : dict) (s s' : io_state) :
  process_track float_of_string w md s = (Ok result, s') →
  process_track float_of_string w result s = (Ok result, s').
Proof.
  intros Hrun.
  destruct (md !! "artist") as [artist|] eqn:Hartist;
    [|rewrite process_track_key_error in Hrun by (now left); done].
  destruct (md !! "name") as [name|] eqn:Hname;
    [|rewrite process_track_key_error in Hrun by (now right); done].
  destruct (process_track_returns float_of_string w md s)
    as (r & s'' & Hrun' & Hframe & _); [eauto..|].
  rewrite Hrun in Hrun'. injection Hrun' as <- <-.
  assert (∀ k, k ∈ ["artist"; "name"; "id"; "duration_ms"] → result !! k = md !! k)
    as Hsame.
  { intros k Hk. apply Hframe. unfold descriptor_keys.
    rewrite !elem_of_cons, elem_of_nil in Hk. rewrite !not_elem_of_cons.
    repeat split; try apply not_elem_of_nil;
      intros ->; repeat (destruct Hk as [Hk|Hk]; try discriminate Hk); done. }
  rewrite (process_track_eq float_of_string w result s artist name)
    by (rewrite Hsame; [done|rewrite !elem_of_cons; tauto]).
  rewrite (process_track_eq float_of_string w md s artist name) in Hrun by done.
  rewrite !Hsame by (rewrite !elem_of_cons; tauto).
  destruct (fetch_soundnet _ _ _ _) as [[[descr|]|e] s1]; [| |done].
  { injection Hrun as <- <-. now rewrite union_absorb. }
  destruct (fetch_preview_url _ _ _ _ _) as [[url|e] s2]; [|done].
  destruct (negb (truthy url)).
  { injection Hrun as <- <-. now rewrite no_preview_again. }
  destruct (download_and_analyze_cases w md s2) as (o & Hmd & Ho).
  destruct (download_and_analyze_cases w result s2) as (o' & -> & Ho').
  rewrite Hmd in Hrun.
  assert (match o with Some r => r | None => failed_download_result md end = result
          ∧ s' = {| sent := S (sent s2); slept := slept s2 |}) as [Hres ->].
  { destruct o; now injection Hrun as <- <-. }
  assert (match o' with Some r => r | None => failed_download_result result end
          = result) as Hres'; [|destruct o'; now rewrite Hres'].
  destruct (net w (sent s2)) as [e|status body].
  - subst o o'. rewrite <- Hres at 1. rewrite error_again. now rewrite Hres. 
  - destruct (status =? 200)%Z.
    + destruct body, (tmp_write w), (unlink w); cbv zeta in Ho, Ho'; subst o o';
        rewrite <- Hres at 1; rewrite ?error_again, ?analyzed_again; now rewrite Hres.
    + subst o o'. rewrite <- Hres at 1. rewrite failed_download_again. now rewrite Hres.
Qed.

End resolver_more.

Lemma process_track_budget_witness :
  ∃ result s' delays,
    process_track (λ _, None) rate_limited_env sample_track io_start = (Ok result, s')
    ∧ sent io_start < sent s' ≤ sent io_start + 8
    ∧ slept s' = slept io_start ++ delays
    ∧ length delays ≤ 3
    ∧ (∀ i d, delays !! i = Some d → d = 1%Q ∨ d = inject_Z (2 ^ Z.of_nat i))
    ∧ (length delays = 3 → result = no_preview_result sample_track).
Proof.
  apply (process_track_budget (λ _, None) rate_limited_env sample_track io_start);
    vm_compute; eauto.
Defined.

Lemma process_track_remote_hit_witness :
  ∃ result,
    process_track (λ _, None) soundnet_env stale_track io_start
    = (Ok result, {| sent := 1; slept := [] |})
    ∧ result !! "bpm" = Some (VNum (1400 # 10))
    ∧ result !! "key" = Some (VStr "8A")
    ∧ result !! "energy" = Some (VNum 50)
    ∧ result !! "source" = Some (VStr "soundnet")
    ∧ (∀ k, k ∉ ["bpm"; "key"; "energy"; "source"] → result !! k = stale_track !! k).
Proof.
  refine (process_track_remote_hit (λ _, None) soundnet_env stale_track soundnet_doc
            io_start (VNum 70) (VNum (1400 # 10)) 50%Q _ _ _ _ _ _).
  - vm_compute; eauto.
  - vm_compute; eauto.
  - reflexivity.
  - reflexivity.
  - vm_compute; reflexivity.
  - reflexivity.
Defined.

Lemma process_track_download_outcomes_witness :
  ∃ bpm key energy,
    analyze_audio_file steady_audio
    = <["bpm" := bpm]> (<["key" := key]> (<["energy" := energy]> ∅))
    ∧ process_track (λ _, None) analysable_env sample_track io_start
      = (Ok (analyzed_result sample_track bpm key energy), {| sent := 3; slept := [] |}).
Proof.
  refine (proj2 (proj2 (process_track_download_outcomes (λ _, None) analysable_env
                          sample_track io_start {| sent := 1; slept := [] |}
                          {| sent := 2; slept := [] |}
                          (VStr "Daft Punk") (VStr "One More Time")
                          (VStr "https://preview/1.m4a") _ _ _ _) _)
                (VStr "m4a") _ _ _).
  - reflexivity.
  - reflexivity.
  - vm_compute. reflexivity.
  - vm_compute. reflexivity.
  - reflexivity.
  - reflexivity.
  - reflexivity.
  - reflexivity.
Defined.

Lemma process_track_reanalysis_witness :
  process_track (λ _, None) unreachable_env (no_preview_result sample_track) io_start
  = (Ok (no_preview_result sample_track), {| sent := 4; slept := [1; 1; 1]%Q |}).
Proof.
  apply (process_track_reanalysis (λ _, None) unreachable_env sample_track).
  vm_compute. reflexivity.
Defined.

(** ** The playlist parser and the event stream *)

(** Inversion of a [bind] of the error monad in a hypothesis. *)
Ltac bind_inv H :=
  match type of H with
  | context [@mbind res _ _ _ _ ?m] =>
      let E := fresh "E" in
      destruct m eqn:E; cbn [mbind res_bind] in H; try discriminate H
  end.

Lemma parse_item_unanalysed (item : pyval) (t : dict) :
  parse_item item = Ok (Some t) → unanalysed t.
Proof.
  unfold parse_item. intros H.
  bind_inv H. destruct (negb (truthy _)); [done|].
  bind_inv H. destruct (truthy _); [done|].
  repeat bind_inv H. injection H as <-.
  split; [|by rewrite ?lookup_insert_ne, ?lookup_insert_eq by done].
  intros k. unfold parsed_keys. rewrite !elem_of_cons, elem_of_nil.
  rewrite !lookup_insert, lookup_empty.
  repeat case_decide; subst; split; eauto 12;
    try (intros [? [=]]); intros Hk; exfalso;
    repeat (destruct Hk as [Hk|Hk]; [congruence|]); done.
Qed.

Lemma parse_items_unanalysed (items : list pyval) (tracks : list dict) :
  parse_items items = Ok tracks →
  length tracks ≤ length items ∧ Forall unanalysed tracks.
Proof.
  revert tracks. induction items as [|item items IH]; intros tracks; cbn [parse_items].
  - intros [= <-]. split; [done|constructor].
  - intros H. bind_inv H. bind_inv H. injection H as <-.
    destruct (IH _ eq_refl) as (Hlen & Hall).
    match goal with E : parse_item item = Ok ?p |- _ => destruct p as [track|] end;
      cbn [length]; (split; [lia|]); [|done].
    constructor; [|done]. eapply parse_item_unanalysed; eauto.
Qed.

(** The parser drops the items that are skipped and leaves every track
    it keeps, each parsed from an item of the playlist, with the nine
    fields of an unanalysed track (hence with [artist] and [name]); it
    returns at most one track per item. *)
Theorem parse_items_tracks (items : list pyval) (tracks : list dict) :
  parse_items items = Ok tracks →
  length tracks ≤ length items
  ∧ Forall unanalysed tracks
  ∧ (∀ t, t ∈ tracks → ∃ item, item ∈ items ∧ parse_item item = Ok (Some t)).
Proof.
  intros Hrun. destruct (parse_items_unanalysed _ _ Hrun) as [Hlen Hall].
  split; [done|]. split; [done|]. clear Hlen Hall.
  revert tracks Hrun. induction items as [|item items IH]; intros tracks;
    cbn [parse_items].
  - intros [= <-] t Ht. now apply elem_of_nil in Ht.
  - intros H. bind_inv H. bind_inv H. injection H as <-.
    intros t Ht.
    assert (t ∈ a0 → ∃ item', item' ∈ item :: items
                              ∧ parse_item item' = Ok (Some t)) as Hrest.
    { intros Hin. destruct (IH _ eq_refl t Hin) as (item' & ? & ?). exists item'.
      split; [now apply list_elem_of_further|done]. }
    destruct a as [track|]; [|now apply Hrest].
    apply elem_of_cons in Ht as [->|Ht]; [|now apply Hrest].
    exists item. split; [apply list_elem_of_here|done].
Qed.

Lemma parse_items_tracks_witness :
  let items := [playlist_item "Aerodynamic"; VDict ∅; playlist_item "Voyager"] in
  let tracks := [parsed_track "Aerodynamic"; parsed_track "Voyager"] in
  parse_items items = Ok tracks
  ∧ length tracks ≤ length items
  ∧ Forall unanalysed tracks
  ∧ (∀ t, t ∈ tracks → ∃ item, item ∈ items ∧ parse_item item = Ok (Some t)).
Proof.
  intros items tracks.
  assert (parse_items items = Ok tracks) as Hrun by (vm_compute; reflexivity).
  split; [exact Hrun|]. exact (parse_items_tracks items tracks Hrun).
Defined.

(** *** The stream *)

Lemma stream_updates_shape (total k : nat) (futures : list (res dict)) :
  ∃ updates r,
    stream_updates total k futures = (updates, r)
    ∧ Forall (λ ev, is_update ev = true) updates
    ∧ length updates ≤ length futures.
Proof.
  revert k. induction futures as [|future rest IH]; intros k.
  - exists [], (Ok ()). repeat split; [constructor|done].
  - cbn [stream_updates]. unfold gen_lift, yield.
    destruct future as [result|e]; [|exists [], (Raise e); repeat split; [constructor|cbn; lia]].
    unfold mbind at 1, gen_bind at 1. unfold dict_getitem.
    destruct (result !! "name") as [name|];
      [|exists [], (Raise KeyError); repeat split; [constructor|cbn; lia]].
    destruct (IH (S k)) as (updates & r & Hrun & Hall & Hlen).
    unfold mbind, gen_bind. rewrite Hrun. cbn [app].
    eexists (_ :: updates), r. split; [reflexivity|].
    split; [now constructor|cbn; lia].
Qed.

Lemma stream_updates_raise (total k : nat) (results : list dict) (e : exn)
    (rest : list (res dict)) :
  Forall (λ r : dict, is_Some (r !! "name")) results →
  stream_updates total k (map Ok results ++ Raise e :: rest)
  = (imap (λ i r, update_event total (S (k + i)) r) results, Raise e).
Proof.
  intros Hall. revert k. induction Hall as [|r results [name Hname] _ IH]; intros k.
  - reflexivity.
  - cbn [map app stream_updates]. unfold gen_lift, dict_getitem.
    unfold mbind at 1, gen_bind at 1. rewrite Hname.
    unfold mbind, gen_bind, yield. cbn [app]. rewrite IH. cbn [imap].
    unfold update_event at 2, percent_of. rewrite Hname, Nat.add_0_r. cbn [default].
    do 2 f_equal. apply imap_ext. intros i x _. cbn. now rewrite Nat.add_succ_r.
Qed.

Lemma futures_split (P : dict → Prop) (futures : list (res dict)) :
  Forall (λ f, (∃ r, f = Ok r ∧ P r) ∨ f = Raise KeyError) futures →
  (∃ results, futures = map Ok results ∧ Forall P results)
  ∨ (∃ results rest, futures = map Ok results ++ Raise KeyError :: rest
                     ∧ Forall P results).
Proof.
  induction 1 as [|f futures Hf _ IH].
  - left. now exists [].
  - destruct Hf as [(r & -> & Hr)| ->].
    + destruct IH as [(results & -> & Hall)|(results & rest & -> & Hall)].
      * left. exists (r :: results). split; [done|now constructor].
      * right. exists (r :: results), rest. split; [done|now constructor].
    + right. exists [], futures. split; [done|constructor].
Qed.

Section batch_more.
Variable float_of_string : string → option Q.
Variable as_completed : list (res dict) → list (res dict).
Variable envs : nat → env.
Variable spotify_items : res (list pyval).

Let pending_of (to_analyze : list dict) : list (res dict) :=
  imap (λ i md, (bounded_process float_of_string (envs i) md io_start).1) to_analyze.

(** A task returns a track with its name, or raises [KeyError] on a track
    without artist or name. *)
Lemma bounded_process_outcome (w : env) (md : dict) (s : io_state) :
  (is_Some (md !! "artist") ∧ is_Some (md !! "name")
   ∧ ∃ r, (bounded_process float_of_string w md s).1 = Ok r ∧ is_Some (r !! "name"))
  ∨ ((md !! "artist" = None ∨ md !! "name" = None)
     ∧ (bounded_process float_of_string w md s).1 = Raise KeyError).
Proof.
  destruct (md !! "artist") as [artist|] eqn:Hartist;
    [destruct (md !! "name") as [name|] eqn:Hname|].
  - left. repeat split; [eauto..|].
    apply bounded_process_returns; rewrite ?Hartist, ?Hname; eauto.
  - right. split; [now right|].
    unfold bounded_process, sleep, mbind, io_bind.
    now rewrite process_track_key_error by now right.
  - right. split; [now left|].
    unfold bounded_process, sleep, mbind, io_bind.
    now rewrite process_track_key_error by now left.
Qed.

Lemma pending_outcomes (to_analyze : list dict) :
  Forall (λ f, (∃ r : dict, f = Ok r ∧ is_Some (r !! "name")) ∨ f = Raise KeyError)
         (pending_of to_analyze).
Proof.
  apply Forall_lookup. intros i f Hi. unfold pending_of in Hi.
  rewrite list_lookup_imap in Hi.
  destruct (to_analyze !! i) as [md|]; [|done]. injection Hi as <-.
  destruct (bounded_process_outcome (envs i) md io_start)
    as [(_ & _ & r & -> & Hr)|[_ ->]]; eauto.
Qed.


Lemma analyze_batch_eq (to_analyze : list dict) :
  analyze_batch float_of_string as_completed envs to_analyze =
  (stream_updates (length to_analyze) 0 (as_completed (pending_of to_analyze));;
   yield (Done Complete)).
Proof. reflexivity. Qed.

(** The stream of a batch: its updates, then [done]; or the updates
    sent before an exception. *)
Lemma analyze_batch_shape (to_analyze : list dict) :
  ∃ updates,
    Forall (λ ev, is_update ev = true) updates
    ∧ (analyze_batch float_of_string as_completed envs to_analyze
       = (updates ++ [Done Complete], Ok ())
       ∨ ∃ e, analyze_batch float_of_string as_completed envs to_analyze
              = (updates, Raise e)).
Proof.
  rewrite analyze_batch_eq.
  destruct (stream_updates_shape (length to_analyze) 0
              (as_completed (pending_of to_analyze)))
    as (updates & r & -> & Hall & _).
  exists updates. split; [done|]. destruct r as [[]|e]; [now left|right; eauto].
Qed.

(** Whatever the request, the scheduler and the outside world, the
    stream is at most two [progress] events, then [update] events, then
    exactly one terminal event, [done] or [error], in last place: the
    generator itself never raises, and nothing follows the terminal
    event. *)
Theorem event_generator_terminal (req : AnalyzeRequest) :
  ∃ progress updates last,
    event_generator float_of_string as_completed envs spotify_items req
    = progress ++ updates ++ [last]
    ∧ Forall (λ ev, is_progress ev = true) progress ∧ length progress ≤ 2
    ∧ Forall (λ ev, is_update ev = true) updates
    ∧ is_terminal last = true.
Proof.
  unfold event_generator.
  assert (∀ pre to_analyze,
            Forall (λ ev, is_progress ev = true) pre → length pre ≤ 2 →
            ∃ progress updates last,
              (gen_try
                 (let '(evs, r) :=
                    analyze_batch float_of_string as_completed envs to_analyze in
                  (pre ++ evs, r))
                 (λ e, yield (Error (Failure e)))).1
              = progress ++ updates ++ [last]
              ∧ Forall (λ ev, is_progress ev = true) progress ∧ length progress ≤ 2
              ∧ Forall (λ ev, is_update ev = true) updates
              ∧ is_terminal last = true) as Hbatch.
  { intros pre to_analyze Hpre Hlen.
    destruct (analyze_batch_shape to_analyze) as (updates & Hall & [-> |[e ->]]).
    - exists pre, updates, (Done Complete). cbn. repeat split; done.
    - exists pre, updates, (Error (Failure e)). cbn.
      rewrite <- (assoc_L (++)). repeat split; done. }
  destruct (tracks req) as [[|track more]|] eqn:Htracks.
  - destruct (playlist_link req) as [[|c link]|].
    + exists [], [], (Error NoSource). cbn. repeat split; first [done | lia | repeat constructor].
    + destruct spotify_items as [items|e].
      * destruct (parse_items items) as [to_analyze|e] eqn:Hparse.
        -- destruct (Hbatch [Progress Fetching; Progress (Found (length items))]
                       to_analyze) as (p & u & l & Hrun & H);
             [repeat constructor|cbn; lia|].
           exists p, u, l. split; [|exact H]. rewrite <- Hrun.
           unfold mbind, gen_bind, gen_lift, yield. rewrite Hparse. cbn [app].
           now destruct (analyze_batch _ _ _ _).
        -- exists [Progress Fetching; Progress (Found (length items))], [],
             (Error (Failure e)).
           unfold mbind, gen_bind, gen_lift, yield. rewrite Hparse. cbn.
           repeat split; first [done | lia | repeat constructor].
      * exists [Progress Fetching], [], (Error (Failure e)). cbn.
        repeat split; first [done | lia | repeat constructor].
    + exists [], [], (Error NoSource). cbn. repeat split; first [done | lia | repeat constructor].
  - destruct (Hbatch [Progress (ReAnalyzing (length (track :: more)))]
                (track :: more)) as (p & u & l & Hrun & H);
      [repeat constructor|cbn; lia|].
    exists p, u, l. split; [|exact H]. rewrite <- Hrun.
    unfold mbind, gen_bind, yield. cbn [app].
    now destruct (analyze_batch _ _ _ _).
  - destruct (playlist_link req) as [[|c link]|].
    + exists [], [], (Error NoSource). cbn. repeat split; first [done | lia | repeat constructor].
    + destruct spotify_items as [items|e].
      * destruct (parse_items items) as [to_analyze|e] eqn:Hparse.
        -- destruct (Hbatch [Progress Fetching; Progress (Found (length items))]
                       to_analyze) as (p & u & l & Hrun & H);
             [repeat constructor|cbn; lia|].
           exists p, u, l. split; [|exact H]. rewrite <- Hrun.
           unfold mbind, gen_bind, gen_lift, yield. rewrite Hparse. cbn [app].
           now destruct (analyze_batch _ _ _ _).
        -- exists [Progress Fetching; Progress (Found (length items))], [],
             (Error (Failure e)).
           unfold mbind, gen_bind, gen_lift, yield. rewrite Hparse. cbn.
           repeat split; first [done | lia | repeat constructor].
      * exists [Progress Fetching], [], (Error (Failure e)). cbn.
        repeat split; first [done | lia | repeat constructor].
    + exists [], [], (Error NoSource). cbn. repeat split; first [done | lia | repeat constructor].
Qed.

(** The generator on a request without tracks and with a link. *)
Lemma event_generator_fetches (req : AnalyzeRequest) (c : ascii) (link : string) :
  no_tracks req → playlist_link req = Some (String c link) →
  event_generator float_of_string as_completed envs spotify_items req =
  (gen_try
     (yield (Progress Fetching);;
      items ← gen_lift spotify_items;
      yield (Progress (Found (length items)));;
      to_analyze ← gen_lift (parse_items items);
      analyze_batch float_of_string as_completed envs to_analyze)
     (λ e, yield (Error (Failure e)))).1.
Proof.
  intros [Hnone|Hnone] Hlink; unfold event_generator; now rewrite Hnone, Hlink.
Qed.


(** A batch in which a track has no artist or no name: its task raises
    [KeyError]; the stream carries the updates of the tasks that completed
    before it, then one [error] event, and no [done] event. *)
Theorem event_generator_task_failure (req : AnalyzeRequest) (track : dict)
    (more : list dict) :
  tracks req = Some (track :: more) →
  let to_analyze := track :: more in
  let total := length to_analyze in
  let pending :=
    imap (λ i md, (bounded_process float_of_string (envs i) md io_start).1)
         to_analyze in
  Exists (λ md : dict, md !! "artist" = None ∨ md !! "name" = None) to_analyze →
  as_completed pending ≡ₚ pending →
  ∃ results rest,
    as_completed pending = map Ok results ++ Raise KeyError :: rest
    ∧ length results < total
    ∧ event_generator float_of_string as_completed envs spotify_items req
      = Progress (ReAnalyzing total)
        :: imap (λ i r, update_event total (S i) r) results
        ++ [Error (Failure KeyError)].
Proof.
  intros Htracks to_analyze total pending Hbad Hperm.
  pose proof (pending_outcomes to_analyze) as Hout.
  change (pending_of to_analyze) with pending in Hout.
  rewrite <- Hperm in Hout.
  destruct (futures_split _ _ Hout)
    as [(results & Hres & _)|(results & rest & Hres & Hnames)].
  - exfalso. apply Exists_exists in Hbad as (md & Hmd & Hmissing).
    apply list_elem_of_lookup in Hmd as [i Hi].
    assert (pending !! i = Some (Raise KeyError)) as Hraise.
    { unfold pending. rewrite list_lookup_imap, Hi. cbn. f_equal.
      destruct (bounded_process_outcome (envs i) md io_start)
        as [([a Ha] & [n Hn] & _)|[_ ->]]; [|done].
      destruct Hmissing; congruence. }
    assert (Raise KeyError ∈ as_completed pending) as Hin.
    { rewrite Hperm. eapply list_elem_of_lookup_2, Hraise. }
    rewrite Hres in Hin. apply list_elem_of_fmap in Hin as (r & [=] & _).
  - exists results, rest. split; [done|]. split.
    + assert (length (as_completed pending) = total) as Hlen.
      { rewrite Hperm. unfold pending. now rewrite length_imap. }
      rewrite Hres, length_app, length_map in Hlen.
      unfold total, to_analyze in Hlen |- *. cbn [length] in Hlen |- *. lia.
    + unfold event_generator. rewrite Htracks. fold to_analyze.
      unfold yield. unfold mbind at 1, gen_bind at 1.
      rewrite analyze_batch_eq.
      change (pending_of to_analyze) with pending. fold total. rewrite Hres.
      rewrite (stream_updates_raise total 0 results KeyError rest Hnames).
      reflexivity.
Qed.

(** What ends the stream before any task starts: a request with neither
    tracks nor link gives the single [error] event of a missing source;
    with a link, an exception of the Spotify client, or an item that
    cannot be parsed, gives an [error] event after the [progress] events
    sent so far. Tracks given with the request take precedence: the
    stream is then the same whatever the link and whatever Spotify would
    answer. *)
Theorem event_generator_setup (req : AnalyzeRequest) :
  let events := event_generator float_of_string as_completed envs spotify_items req in
  (no_tracks req → no_link req → events = [Error NoSource])
  ∧ (∀ c link e, no_tracks req → playlist_link req = Some (String c link) →
       spotify_items = Raise e →
       events = [Progress Fetching; Error (Failure e)])
  ∧ (∀ c link items e, no_tracks req → playlist_link req = Some (String c link) →
       spotify_items = Ok items → parse_items items = Raise e →
       events = [Progress Fetching; Progress (Found (length items));
                 Error (Failure e)])
  ∧ (∀ track more other_items req',
       tracks req = Some (track :: more) → tracks req' = tracks req →
       event_generator float_of_string as_completed envs other_items req' = events).
Proof.
  cbv zeta. repeat split.
  - intros [Hnone|Hnone] [Hlink|Hlink]; unfold event_generator;
      now rewrite Hnone, Hlink.
  - intros c link e Hnone Hlink Hitems.
    rewrite (event_generator_fetches req c link) by done. now rewrite Hitems.
  - intros c link items e Hnone Hlink Hitems Hparse.
    rewrite (event_generator_fetches req c link) by done. rewrite Hitems.
    unfold gen_lift, yield. unfold mbind, gen_bind. now rewrite Hparse.
  - intros track more other_items req' Htracks Hsame. unfold event_generator.
    now rewrite Hsame, Htracks.
Qed.

End batch_more.


Lemma event_generator_task_failure_witness :
  ∃ results rest,
    length results < 2
    ∧ event_generator (λ _, None) id (λ _, unreachable_env) (Ok []) broken_batch
      = Progress (ReAnalyzing 2)
        :: imap (λ i r, update_event 2 (S i) r) results
        ++ [Error (Failure KeyError)]
    ∧ id (imap (λ i md, (bounded_process (λ _, None) unreachable_env md io_start).1)
               [track_named "Aerodynamic"; nameless_artist])
      = map Ok results ++ Raise KeyError :: rest.
Proof.
  destruct (event_generator_task_failure (λ _, None) id (λ _, unreachable_env)
              (Ok []) broken_batch (track_named "Aerodynamic") [nameless_artist]
              eq_refl)
    as (results & rest & Hres & Hlen & Hevents).
  - apply Exists_cons_tl, Exists_cons_hd. now left.
  - reflexivity.
  - exists results, rest. split; [exact Hlen|]. split; [exact Hevents|exact Hres].
Defined.

(** ** The permit pool: progress *)

Module PoolProgress.
Import Pool PoolFacts.

(** What [run] keeps: one counter per task, none beyond the four steps. *)
Lemma run_tasks (schedule : list nat) (s s' : state) :
  run schedule s = Some s' →
  Forall (λ pc, pc ≤ 4) (steps_done s) →
  Forall (λ pc, pc ≤ 4) (steps_done s')
  ∧ length (steps_done s') = length (steps_done s)
  ∧ sum_list (steps_done s') = sum_list (steps_done s) + length schedule.
Proof.
  revert s. induction schedule as [|i rest IH]; intros s; cbn [run].
  - intros [= <-] Hall. repeat split; first [done | cbn; lia].
  - destruct (step i s) as [s1|] eqn:Hstep; [|done]. cbn [mbind option_bind].
    intros Hrun Hall.
    destruct (IH s1 Hrun (step_bounded _ _ _ Hstep Hall)) as (Hall' & Hlen & Hsum).
    split; [done|].
    assert (length (steps_done s1) = length (steps_done s)
            ∧ sum_list (steps_done s1) = S (sum_list (steps_done s))) as [E1 E2].
    { unfold step in Hstep.
      destruct (steps_done s !! i) as [pc|] eqn:Hpc; [|done].
      cbn [mbind option_bind] in Hstep.
      pose proof (sum_insert (λ pc, pc) (steps_done s) i pc (S pc) Hpc) as Hins.
      rewrite !map_id in Hins.
      destruct (bounded_process_steps !! pc) as [ins|]; [|done].
      cbn [mbind option_bind] in Hstep.
      destruct ins; [destruct (decide _); [|done]|..];
        injection Hstep as <-; cbn [steps_done];
        rewrite length_insert; (split; [done|lia]). }
    cbn [length]. split; lia.
Qed.

Lemma init_tasks (n : nat) :
  Forall (λ pc, pc ≤ 4) (steps_done (init n))
  ∧ length (steps_done (init n)) = n
  ∧ sum_list (steps_done (init n)) = 0.
Proof.
  unfold init. cbn [steps_done]. repeat split.
  - apply Forall_replicate. lia.
  - apply length_replicate.
  - induction n as [|n IH]; [done|]. cbn. exact IH.
Qed.

(** A task that holds a permit exists as soon as one is in flight. *)
Lemma in_flight_holder (l : list nat) :
  0 < sum_list (map (λ pc, if holds pc then 1 else 0) l) →
  ∃ i pc, l !! i = Some pc ∧ holds pc = true.
Proof.
  induction l as [|pc l IH]; cbn; [lia|].
  destruct (holds pc) eqn:Hpc.
  - intros _. now exists 0, pc.
  - intros Hpos. destruct IH as (i & pc' & Hi & Hh); [lia|]. now exists (S i), pc'.
Qed.

(** The pool never blocks for good: in every state it reaches, as long as
    a task has steps left, some task can take its next step. *)
Theorem no_deadlock (n : nat) (schedule : list nat) (s : state) :
  run schedule (init n) = Some s →
  (∃ i pc, steps_done s !! i = Some pc ∧ pc < 4) →
  ∃ i s', step i s = Some s'.
Proof.
  intros Hrun (i & pc & Hi & Hpc).
  pose proof (run_invariant schedule _ _ Hrun (init_invariant n)) as Hinv.
  destruct (decide (0 < value s)) as [Hvalue|Hvalue].
  - exists i. unfold step. rewrite Hi. cbn [mbind option_bind].
    destruct pc as [|[|[|[|pc]]]]; cbn; [|eauto..|lia].
    destruct (decide (0 < value s)); [eauto|done].
  - destruct (in_flight_holder (steps_done s)) as (j & pc' & Hj & Hh).
    { unfold in_flight in Hinv. lia. }
    exists j. unfold step. rewrite Hj. cbn [mbind option_bind].
    destruct pc' as [|[|[|[|pc']]]]; cbn in Hh |- *; try done; eauto.
Qed.

Lemma no_deadlock_witness :
  ∃ s, run [0; 1; 2; 3] (init 6) = Some s
       ∧ step 4 s = None
       ∧ ∃ i s', step i s = Some s'.
Proof.
  assert (∃ s, run [0; 1; 2; 3] (init 6) = Some s ∧ step 4 s = None
               ∧ steps_done s !! 4 = Some 0) as (s & Hrun & Hwait & Hpc)
    by (vm_compute; eauto).
  exists s. split; [exact Hrun|]. split; [exact Hwait|].
  apply (no_deadlock 6 [0; 1; 2; 3] s Hrun). exists 4, 0. split; [exact Hpc|lia].
Defined.

Lemma all_four (l : list nat) :
  Forall (λ pc, pc ≤ 4) l → sum_list l = 4 * length l → Forall (λ pc, pc = 4) l.
Proof.
  induction 1 as [|pc l Hpc Hall IH]; [constructor|]. cbn.
  intros Hsum.
  assert (sum_list l ≤ 4 * length l) as Hle.
  { clear -Hall. induction Hall; cbn; lia. }
  constructor; [lia|]. apply IH. lia.
Qed.

(** A batch of [n] tracks takes at most [4 n] steps in all, whatever the
    interleaving; after [4 n] steps every task has left the semaphore and
    the four permits are back. *)
Theorem batch_completes (n : nat) (schedule : list nat) (s : state) :
  run schedule (init n) = Some s →
  length schedule = sum_list (steps_done s)
  ∧ length schedule ≤ 4 * n
  ∧ (length schedule = 4 * n →
     Forall (λ pc, pc = 4) (steps_done s) ∧ in_flight s = 0 ∧ value s = 4).
Proof.
  intros Hrun.
  destruct (init_tasks n) as (Hall0 & Hlen0 & Hsum0).
  destruct (run_tasks schedule _ _ Hrun Hall0) as (Hall & Hlen & Hsum).
  rewrite Hlen0 in Hlen. rewrite Hsum0 in Hsum.
  assert (sum_list (steps_done s) ≤ 4 * length (steps_done s)) as Hle.
  { clear -Hall. induction Hall; cbn; lia. }
  split; [lia|]. split; [lia|]. intros Hfull.
  assert (Forall (λ pc, pc = 4) (steps_done s)) as Hdone
    by (apply all_four; [done|lia]).
  assert (in_flight s = 0) as Hnone.
  { unfold in_flight. clear -Hdone. induction Hdone as [|pc l -> _ IH]; [done|].
    cbn. exact IH. }
  pose proof (run_invariant schedule _ _ Hrun (init_invariant n)) as Hinv.
  repeat split; [done|done|lia].
Qed.

Lemma batch_completes_witness :
  ∃ s, run [0; 1; 0; 0; 1; 0; 1; 1] (init 2) = Some s
       ∧ Forall (λ pc, pc = 4) (steps_done s) ∧ in_flight s = 0 ∧ value s = 4.
Proof.
  assert (∃ s, run [0; 1; 0; 0; 1; 0; 1; 1] (init 2) = Some s) as (s & Hrun)
    by (vm_compute; eauto).
  exists s. split; [exact Hrun|].
  exact (proj2 (proj2 (batch_completes 2 _ s Hrun)) eq_refl).
Defined.

End PoolProgress.

(** ** Playlist creation: [create_playlist] *)

Module CreatePlaylistFacts.
Import CreatePlaylist.

Lemma range_step_100 (n : nat) :
  range_step n 100 = map (λ k, k * 100) (seq 0 ((n + 99) / 100)).
Proof. unfold range_step. now replace (n + 100 - 1) with (n + 99) by lia. Qed.

Lemma chunks_concat {A} (n : nat) (l : list A) :
  length l ≤ 100 * n →
  concat (map (λ k, take 100 (drop (k * 100) l)) (seq 0 n)) = l.
Proof.
  revert l. induction n as [|n IH]; intros l Hlen.
  - destruct l; [done|cbn in Hlen; lia].
  - cbn [seq map concat]. rewrite <- fmap_S_seq.
    change (map ?f (S <$> ?l)) with (map f (map S l)). rewrite map_map.
    rewrite (map_ext _ (λ k, take 100 (drop (k * 100) (drop 100 l)))).
    2:{ intros k. rewrite drop_drop. do 2 f_equal; lia. }
    rewrite IH by (rewrite length_drop; lia).
    cbn [Nat.mul drop]. apply take_drop.
Qed.

Lemma batches_spec {A} (l : list A) :
  concat (batches l) = l
  ∧ length (batches l) = (length l + 99) / 100
  ∧ Forall (λ batch, 0 < length batch ≤ 100) (batches l).
Proof.
  unfold batches, slice100. rewrite range_step_100, map_map.
  assert (length l ≤ 100 * ((length l + 99) / 100)) as Hcover.
  { pose proof (Nat.div_mod_eq (length l + 99) 100) as Hdiv.
    pose proof (Nat.mod_upper_bound (length l + 99) 100). lia. }
  split; [now apply chunks_concat|]. split; [now rewrite length_map, length_seq|].
  apply Forall_map, Forall_forall. intros k Hk. apply elem_of_seq in Hk. cbn beta.
  rewrite length_take, length_drop.
  assert (k * 100 < length l); [|lia].
  pose proof (Nat.div_mod_eq (length l + 99) 100) as Hdiv.
  pose proof (Nat.mod_upper_bound (length l + 99) 100). nia.
Qed.

(** The loop over the batches, when every call succeeds. *)
Lemma add_batches_ok (sp : spotify) (playlist_id : pyval) (track_uris : list pyval)
    (k : nat) (starts : list nat) :
  (∀ j, k ≤ j < k + length starts → playlist_add_items sp j = Ok ()) →
  add_batches sp playlist_id track_uris k starts
  = (map (λ i, Added playlist_id (slice100 track_uris i)) starts, Ok ()).
Proof.
  revert k. induction starts as [|i rest IH]; intros k Hok; [done|].
  cbn [add_batches map]. unfold sp_call, mbind, sp_bind.
  rewrite Hok by (cbn; lia). rewrite IH by (intros j Hj; apply Hok; cbn; lia).
  reflexivity.
Qed.

(** The loop over the batches, when the call of index [k + m] is the
    first that raises. *)
Lemma add_batches_raise (sp : spotify) (playlist_id : pyval) (track_uris : list pyval)
    (k m : nat) (starts : list nat) (e : exn) :
  m < length starts →
  (∀ j, k ≤ j < k + m → playlist_add_items sp j = Ok ()) →
  playlist_add_items sp (k + m) = Raise e →
  add_batches sp playlist_id track_uris k starts
  = (map (λ i, Added playlist_id (slice100 track_uris i)) (take (S m) starts),
     Raise e).
Proof.
  revert k m. induction starts as [|i rest IH]; intros k m Hm Hok Hraise;
    [cbn in Hm; lia|].
  cbn [add_batches]. unfold sp_call, mbind, sp_bind.
  destruct m as [|m].
  - rewrite Nat.add_0_r in Hraise. now rewrite Hraise.
  - rewrite Hok by lia.
    rewrite (IH (S k) m) by
      (first [cbn in Hm; lia | intros j Hj; apply Hok; lia
             | now rewrite <- Nat.add_succ_comm in Hraise]).
    reflexivity.
Qed.

Lemma sp_bind_ok {A B} (calls : list call) (a : A) (f : A → Sp B) :
  ((calls, Ok a) : Sp A) ≫= f = let '(calls', r) := f a in (calls ++ calls', r).
Proof. reflexivity. Qed.

Section endpoint.
Variables (sp : spotify) (req : CreatePlaylistRequest).
Variables (user playlist user_id playlist_id : pyval) (track_uris : list pyval).
Hypothesis Huser : current_user sp = Ok user.
Hypothesis Huser_id : py_getitem user "id" = Ok user_id.
Hypothesis Hcreate : user_playlist_create sp = Ok playlist.
Hypothesis Hplaylist_id : py_getitem playlist "id" = Ok playlist_id.
Hypothesis Huris : uris (tracks req) = Ok track_uris.

Lemma create_playlist_body_adds :
  create_playlist_body sp req =
  let '(calls, r) :=
    add_batches sp playlist_id track_uris 0 (range_step (length track_uris) 100) in
  match r with
  | Ok _ =>
      match py_getitem playlist "external_urls" ≫= λ urls, py_getitem urls "spotify" with
      | Ok url =>
          (Created user_id (name req) :: calls,
           Ok (<["id" := playlist_id]> (<["url" := url]> (∅ : dict))))
      | Raise e => (Created user_id (name req) :: calls, Raise e)
      end
  | Raise e => (Created user_id (name req) :: calls, Raise e)
  end.
Proof using Huser Huser_id Hcreate Hplaylist_id Huris.
  unfold create_playlist_body, sp_lift.
  rewrite Huser. cbn [mbind res_bind]. rewrite Huser_id.
  rewrite sp_bind_ok, Hcreate, sp_bind_ok, Hplaylist_id, sp_bind_ok, Huris, sp_bind_ok.
  destruct (add_batches _ _ _ _ _) as [calls [[]|e]]; [|done].
  unfold mbind at 1, sp_bind at 1.
  destruct (py_getitem playlist "external_urls" ≫= _) as [url|e]; cbn;
    now rewrite ?app_nil_r.
Qed.

End endpoint.

(** When every call of the client succeeds, the playlist is created
    once, under the user's id and the requested name, and the URIs are
    added in their order, in batches of at most 100 that are never
    empty; the number of calls is the number of URIs over 100, rounded
    up (none for an empty list), and the answer carries the id and the
    address of the playlist. *)
Theorem create_playlist_batches (sp : spotify) (req : CreatePlaylistRequest)
    (user playlist user_id playlist_id url : pyval) (urls : pyval)
    (track_uris : list pyval) :
  current_user sp = Ok user → py_getitem user "id" = Ok user_id →
  user_playlist_create sp = Ok playlist → py_getitem playlist "id" = Ok playlist_id →
  py_getitem playlist "external_urls" = Ok urls → py_getitem urls "spotify" = Ok url →
  uris (tracks req) = Ok track_uris →
  (∀ k, playlist_add_items sp k = Ok ()) →
  create_playlist sp req
  = (Created user_id (name req) :: map (Added playlist_id) (batches track_uris),
     Returned (<["id" := playlist_id]> (<["url" := url]> ∅)))
  ∧ concat (batches track_uris) = track_uris
  ∧ length (batches track_uris) = (length track_uris + 99) / 100
  ∧ Forall (λ batch, 0 < length batch ≤ 100) (batches track_uris).
Proof.
  intros Huser Huser_id Hcreate Hid Hurls Hurl Huris Hok.
  split; [|apply batches_spec].
  unfold create_playlist.
  rewrite (create_playlist_body_adds sp req user playlist user_id playlist_id
             track_uris) by done.
  rewrite add_batches_ok by (intros; apply Hok).
  rewrite Hurls. cbn [mbind res_bind]. rewrite Hurl.
  unfold batches. now rewrite map_map.
Qed.

(** A failure after the playlist was created leaves it behind, and the
    answer is the status 500 with the exception: a track without [uri]
    leaves the playlist empty (no addition is made, not even of the URIs
    of the tracks before it), and when an addition fails, the additions
    made are those of the batches up to the failing one, the earlier ones
    having succeeded. *)
Theorem create_playlist_partial (sp : spotify) (req : CreatePlaylistRequest)
    (user playlist user_id playlist_id : pyval) :
  current_user sp = Ok user → py_getitem user "id" = Ok user_id →
  user_playlist_create sp = Ok playlist → py_getitem playlist "id" = Ok playlist_id →
  (Exists (λ t : dict, t !! "uri" = None) (tracks req) →
   create_playlist sp req
   = ([Created user_id (name req)], HTTPException 500 KeyError))
  ∧ (∀ track_uris m e,
       uris (tracks req) = Ok track_uris →
       m < length (batches track_uris) →
       (∀ j, j < m → playlist_add_items sp j = Ok ()) →
       playlist_add_items sp m = Raise e →
       create_playlist sp req
       = (Created user_id (name req)
          :: map (Added playlist_id) (take (S m) (batches track_uris)),
          HTTPException 500 e)).
Proof.
  intros Huser Huser_id Hcreate Hid. split.
  - intros Hbad.
    assert (uris (tracks req) = Raise KeyError) as Huris.
    { induction Hbad as [t rest Ht|t rest _ IH]; cbn [uris]; unfold dict_getitem.
      - now rewrite Ht.
      - destruct (t !! "uri"); [|done]. cbn [mbind res_bind]. now rewrite IH. }
    unfold create_playlist, create_playlist_body, sp_lift.
    rewrite Huser. cbn [mbind res_bind].
    rewrite Huser_id, sp_bind_ok, Hcreate, sp_bind_ok, Hid, sp_bind_ok, Huris.
    reflexivity.
  - intros track_uris m e Huris Hm Hok Hraise.
    unfold create_playlist.
    rewrite (create_playlist_body_adds sp req user playlist user_id playlist_id
               track_uris) by done.
    unfold batches in Hm |- *. rewrite length_map in Hm.
    rewrite (add_batches_raise sp playlist_id track_uris 0 m _ e)
      by (first [done | intros j Hj; apply Hok; lia]).
    now rewrite <- fmap_take, map_map.
Qed.

Lemma create_playlist_batches_witness :
  let track_uris := map track_uri (seq 0 250) in
  create_playlist (spotify_client []) sorted_request
  = (Created (VStr "user") "Sorted"
     :: map (Added (VStr "playlist")) (batches track_uris),
     Returned (<["id" := VStr "playlist"]>
              (<["url" := VStr "https://open.spotify.com/playlist/1"]> ∅)))
  ∧ map length (batches track_uris) = [100; 100; 50].
Proof.
  intros track_uris. split; [|vm_compute; reflexivity].
  refine (proj1 (create_playlist_batches (spotify_client []) sorted_request
                   _ _ (VStr "user") (VStr "playlist")
                   (VStr "https://open.spotify.com/playlist/1") _ track_uris
                   eq_refl eq_refl eq_refl eq_refl eq_refl eq_refl _ _)).
  - vm_compute. reflexivity.
  - reflexivity.
Defined.

Lemma create_playlist_partial_witness :
  let track_uris := map track_uri (seq 0 250) in
  create_playlist (spotify_client [1]) sorted_request
  = (Created (VStr "user") "Sorted"
     :: map (Added (VStr "playlist")) (take 2 (batches track_uris)),
     HTTPException 500 ClientError).
Proof.
  intros track_uris.
  refine (proj2 (create_playlist_partial (spotify_client [1]) sorted_request
                   _ _ (VStr "user") (VStr "playlist")
                   eq_refl eq_refl eq_refl eq_refl)
                track_uris 1 ClientError _ _ _ _).
  - vm_compute. reflexivity.
  - vm_compute. lia.
  - intros [|j] Hj; [reflexivity|lia].
  - reflexivity.
Defined.

End CreatePlaylistFacts.

(** ** The playlist identifier of a link *)

Lemma py_split_cons (sep : ascii) (s : string) :
  ∃ piece more, py_split sep s = piece :: more.
Proof.
  induction s as [|c s (piece & more & IH)]; cbn [py_split]; [eauto|].
  rewrite IH. destruct (Ascii.eqb c sep); eauto.
Qed.

(** A string without the separator is its own single piece. *)
Lemma py_split_whole (sep : ascii) (s : string) :
  has_char sep s = false → py_split sep s = [s].
Proof.
  induction s as [|c s IH]; cbn [py_split has_char]; [done|].
  intros H. apply orb_false_iff in H as [Hc Hs]. now rewrite Hc, IH.
Qed.

(** No piece holds the separator, nor a character that the string does
    not hold. *)
Lemma py_split_pieces (sep c : ascii) (s : string) :
  (c = sep ∨ has_char c s = false) →
  Forall (λ piece, has_char c piece = false) (py_split sep s).
Proof.
  induction s as [|c' s IH]; cbn [py_split has_char]; intros Hc.
  - now repeat constructor.
  - assert (c = sep ∨ has_char c s = false) as Hrest.
    { destruct Hc as [->|H]; [now left|]. apply orb_false_iff in H as [_ ?]. now right. }
    specialize (IH Hrest).
    destruct (Ascii.eqb c' sep) eqn:Hsep.
    + constructor; [done|exact IH].
    + destruct (py_split_cons sep s) as (piece & more & E). rewrite E in IH |- *.
      apply Forall_cons in IH as [Hpiece Hmore]. constructor; [|done].
      cbn [has_char]. rewrite Hpiece, orb_false_r.
      destruct Hc as [->|H]; [done|]. now apply orb_false_iff in H as [? _].
Qed.

Lemma py_split_app (sep : ascii) (a b : string) :
  py_split sep (a +:+ String sep b) = py_split sep a ++ py_split sep b.
Proof.
  induction a as [|c a IH].
  - change (EmptyString +:+ String sep b) with (String sep b). cbn [py_split].
    now rewrite Ascii.eqb_refl.
  - change (String c a +:+ String sep b) with (String c (a +:+ String sep b)).
    cbn [py_split]. rewrite IH. destruct (Ascii.eqb c sep); [done|].
    now destruct (py_split_cons sep a) as (piece & more & ->).
Qed.

Lemma last_app_cons {A} (l : list A) (x : A) (l' : list A) (d : A) :
  List.last (l ++ x :: l') d = List.last (x :: l') d.
Proof.
  induction l as [|y l IH]; [done|]. cbn [app]. rewrite <- IH.
  destruct (l ++ x :: l') eqn:E; [now destruct l|reflexivity].
Qed.

Lemma last_elem {A} (l : list A) (x d : A) : List.last (x :: l) d ∈ x :: l.
Proof.
  revert x. induction l as [|y l IH]; intros x; [apply list_elem_of_here|].
  change (List.last (x :: y :: l) d) with (List.last (y :: l) d).
  apply list_elem_of_further, IH.
Qed.

(** The identifier taken from a link is the text after the last [/], up
    to the first [?] that follows. It holds neither character. A link
    [base/id], with or without a query [?...] that has no [/], gives
    [id]; so does a bare [id]. *)
Theorem playlist_id_of_link_spec :
  (∀ link, has_char "/" (playlist_id_of_link link) = false
           ∧ has_char "?" (playlist_id_of_link link) = false)
  ∧ (∀ id, has_char "/" id = false → has_char "?" id = false →
       playlist_id_of_link id = id
       ∧ (∀ base, playlist_id_of_link (base +:+ "/" +:+ id) = id)
       ∧ (∀ base query, has_char "/" query = false →
            playlist_id_of_link (base +:+ "/" +:+ id +:+ "?" +:+ query) = id)).
Proof.
  split.
  - intros link. unfold playlist_id_of_link.
    set (after_slash := List.last (py_split "/" link) EmptyString).
    assert (has_char "/" after_slash = false) as Hslash.
    { unfold after_slash. destruct (py_split_cons "/" link) as (p & more & E).
      pose proof (py_split_pieces "/" "/" link (or_introl eq_refl)) as Hall.
      rewrite E in Hall |- *. rewrite Forall_forall in Hall.
      apply Hall, last_elem. }
    destruct (py_split_cons "?" after_slash) as (p & more & E). rewrite E.
    cbn [List.hd].
    pose proof (py_split_pieces "?" "/" after_slash (or_intror Hslash)) as H1.
    pose proof (py_split_pieces "?" "?" after_slash (or_introl eq_refl)) as H2.
    rewrite E in H1, H2. apply Forall_cons in H1 as [? _], H2 as [? _]. done.
  - intros id Hslash Hquery.
    assert (playlist_id_of_link id = id) as Hbare.
    { unfold playlist_id_of_link. rewrite (py_split_whole "/") by done.
      cbn [List.last]. now rewrite (py_split_whole "?"). }
    split; [exact Hbare|]. split.
    + intros base. unfold playlist_id_of_link.
      change ("/" +:+ id) with (String "/" id).
      rewrite py_split_app, (py_split_whole "/" id) by done.
      rewrite last_app_cons. cbn [List.last].
      now rewrite (py_split_whole "?").
    + intros base query Hq. unfold playlist_id_of_link.
      change ("/" +:+ id +:+ "?" +:+ query) with (String "/" (id +:+ String "?" query)).
      rewrite py_split_app.
      assert (has_char "/" (id +:+ String "?" query) = false) as Hrest.
      { clear -Hslash Hq. induction id as [|c id IH].
        - exact Hq.
        - change (String c id +:+ String "?" query)
            with (String c (id +:+ String "?" query)).
          cbn [has_char] in Hslash |- *.
          apply orb_false_iff in Hslash as [-> ?]. now apply IH. }
      rewrite (py_split_whole "/" _ Hrest), last_app_cons. cbn [List.last].
      rewrite py_split_app, (py_split_whole "?" id) by done. reflexivity.
Qed.

(** A query that holds a [/] hides the identifier, and a link that ends
    with [/] gives the empty identifier. *)
Example playlist_id_of_link_samples :
  playlist_id_of_link "https://open.spotify.com/playlist/37i9dQZF1DX?si=1" = "37i9dQZF1DX"
  ∧ playlist_id_of_link "https://open.spotify.com/playlist/37i9dQZF1DX?go=a/b" = "b"
  ∧ playlist_id_of_link "https://open.spotify.com/playlist/37i9dQZF1DX/" = EmptyString.
Proof. repeat split. Qed.

(** ** Key estimation: loudness *)

Section scaling.
Variable c : Q.
Hypothesis Hc : (0 < c)%Q.














End scaling.

